(** * benchsort: the row codec, the dataset file format and the bounded loader

    A shallow embedding of [cmd/benchsort/main.go].  Go's [int], [int64] and
    [uint64] are integers of [Z] with the wrap-around of the conversions
    written out; byte slices are lists of [byte]; the process-wide variables
    [scale], [keySize] and [valSize] are a record threaded through the calls;
    an open file is the list of bytes that remain to be read.  A call ends in
    a value, in an error value, or in a run-time panic.

    The model follows the Go language specification: slices are unbounded
    lists, and the allocation limits of a particular runtime are not
    modelled. *)

From Stdlib Require Import ZArith List Lia String Bool.
From Stdlib.Strings Require Import Byte.
From Stdlib Require Import Floats.
Import ListNotations.
Open Scope Z_scope.

(** ** Machine integers *)

Module GoInt.

Definition maxInt : Z := 2 ^ 63 - 1.
Definition minInt : Z := - 2 ^ 63.

(** The values of Go's [int] (64 bits wide on the platforms TiDB builds for). *)
Definition is_int (z : Z) : Prop := minInt <= z <= maxInt.

(** The values of [uint64]. *)
Definition is_uint64 (z : Z) : Prop := 0 <= z < 2 ^ 64.

(** [uint64(x)] for an [int] or [int64] [x]: reduction modulo 2^64. *)
Definition to_uint64 (z : Z) : Z := z mod 2 ^ 64.

(** [int(u)] and [int64(u)] for a [uint64] [u]: the two's complement reading. *)
Definition of_uint64 (u : Z) : Z :=
  let r := u mod 2 ^ 64 in
  if r <? 2 ^ 63 then r else r - 2 ^ 64.

(** [x + y] on [int]: wraps around. *)
Definition add (x y : Z) : Z := of_uint64 (x + y).

End GoInt.

(** ** Bytes *)

Definition byte_of_Z (z : Z) : byte :=
  match Byte.of_N (Z.to_N (z mod 256)) with
  | Some b => b
  | None => x00
  end.

Definition Z_of_byte (b : byte) : Z := Z.of_N (Byte.to_N b).

(** [len(b)] as an [int]. *)
Definition len {A : Type} (l : list A) : Z := Z.of_nat (List.length l).

(** ** encoding/binary, big endian *)

Module binary.

(** [binary.BigEndian.PutUint64(b, v)] on an 8-byte slice: the slice after
    the call. *)
Definition PutUint64 (v : Z) : list byte :=
  [ byte_of_Z (Z.shiftr v 56); byte_of_Z (Z.shiftr v 48);
    byte_of_Z (Z.shiftr v 40); byte_of_Z (Z.shiftr v 32);
    byte_of_Z (Z.shiftr v 24); byte_of_Z (Z.shiftr v 16);
    byte_of_Z (Z.shiftr v 8);  byte_of_Z v ].

Definition at_ (b : list byte) (i : nat) : Z := Z_of_byte (nth i b x00).

(** [binary.BigEndian.Uint64(b)]; every caller passes exactly 8 bytes. *)
Definition Uint64 (b : list byte) : Z :=
  Z.lor (at_ b 7)
 (Z.lor (Z.shiftl (at_ b 6) 8)
 (Z.lor (Z.shiftl (at_ b 5) 16)
 (Z.lor (Z.shiftl (at_ b 4) 24)
 (Z.lor (Z.shiftl (at_ b 3) 32)
 (Z.lor (Z.shiftl (at_ b 2) 40)
 (Z.lor (Z.shiftl (at_ b 1) 48)
        (Z.shiftl (at_ b 0) 56))))))).

End binary.

(** ** Errors (github.com/juju/errors) and outcomes *)

(** An error value: one made by [errors.New], [io.EOF], or an error annotated
    by [errors.Trace], which records the call site and keeps the cause. *)
Inductive error : Type :=
| errNew (msg : string)
| io_EOF
| errTrace (e : error).

Fixpoint Cause (e : error) : error :=
  match e with
  | errTrace e' => Cause e'
  | _ => e
  end.

(** How a call ends: with a value, with an error value (the other results
    then being [nil]), or in a run-time panic. *)
Inductive outcome (A : Type) : Type :=
| Ok (a : A)
| Err (e : error)
| Panic (msg : string).
Arguments Ok {A} a.
Arguments Err {A} e.
Arguments Panic {A} msg.

(** ** An open file: the bytes not yet read *)

Module os.

Definition File : Type := list byte.

(** [n, err = fd.Read(buf)] with [len(buf) = size]: the bytes stored at the
    front of [buf] (their number is [n]), [err], and the file afterwards.  A
    regular file gives [min size remaining] bytes; at its end a read of a
    non-empty buffer gives [0, io.EOF]; a read into an empty buffer gives
    [0, nil]. *)
Definition Read (fd : File) (size : Z) : list byte * option error * File :=
  if size <=? 0 then ([], None, fd)
  else match fd with
       | [] => ([], Some io_EOF, fd)
       | _ => if size <=? len fd
              then (firstn (Z.to_nat size) fd, None, skipn (Z.to_nat size) fd)
              else (fd, None, [])
       end.

(** The buffer after the read: the bytes read, then the zeroes [make] left. *)
Definition fill (data : list byte) (size : Z) : list byte :=
  data ++ repeat x00 (Z.to_nat size - List.length data).

End os.

(** ** Typed values and their codec (util/types, util/codec) *)

Module types.

(** Modelled from the spec: [types.Datum], the tagged scalar of section 3
    ("typed values are tagged scalars; the system only exercises
    integer-valued scalars").  The package util/types is not among the
    sources.  A datum is NULL, a signed or an unsigned 64-bit integer, or a
    value of a kind the key encoding cannot represent. *)
Inductive Datum : Type :=
| KindNull
| KindInt64 (i : Z)
| KindUint64 (u : Z)
| KindInterface.

(** Modelled from the spec: [types.NewDatum(x)] for an [int] [x] and
    [types.NewIntDatum(x)] for an [int64] [x], the "signed-integer-tagged
    scalar" of section 4.1. *)
Definition NewIntDatum (x : Z) : Datum := KindInt64 x.

(** Modelled from the spec: [d.GetInt64()], "asInt64" in section 4.1: the
    64-bit payload read as a signed integer. *)
Definition GetInt64 (d : Datum) : Z :=
  match d with
  | KindInt64 i => i
  | KindUint64 u => GoInt.of_uint64 u
  | _ => 0
  end.

(** The values a datum can hold: its payload fits its 64-bit type. *)
Definition valid (d : Datum) : Prop :=
  match d with
  | KindInt64 i => GoInt.is_int i
  | KindUint64 u => GoInt.is_uint64 u
  | _ => True
  end.

End types.

Module codec.
Import types.

Definition NilFlag : Z := 0.
Definition intFlag : Z := 3.
Definition uintFlag : Z := 4.
Definition signMask : Z := 2 ^ 63.

(** Modelled from the spec: the payload of one scalar under the
    "self-describing ordered encoding where each scalar carries enough
    information to be decoded without external schema (tag + payload)" of
    section 4.1; util/codec is not among the sources.  A tag byte, then for
    an integer its 8 bytes, big endian, a signed one with the sign bit
    flipped so that the byte order is the numeric order.  A scalar that
    cannot be represented is an [EncodingError]. *)
Definition encodeOne (d : Datum) : list byte + error :=
  match d with
  | KindNull => inl [byte_of_Z NilFlag]
  | KindInt64 i =>
      inl (byte_of_Z intFlag
             :: binary.PutUint64 (Z.lxor (GoInt.to_uint64 i) signMask))
  | KindUint64 u => inl (byte_of_Z uintFlag :: binary.PutUint64 u)
  | KindInterface => inr (errNew "unsupport encode type")
  end.

(** Modelled from the spec: [codec.EncodeKey(b, v...)], which appends the
    scalars of [v] to [b] in order and fails on the first one that cannot be
    represented. *)
Fixpoint EncodeKey (b : list byte) (v : list Datum) : list byte + error :=
  match v with
  | [] => inl b
  | d :: v' =>
      match encodeOne d with
      | inl bs => EncodeKey (b ++ bs) v'
      | inr e => inr e
      end
  end.

(** The bytes [EncodeKey] appends for [v]; used to state what it returns. *)
Fixpoint encodeAll (v : list Datum) : list byte + error :=
  match v with
  | [] => inl []
  | d :: v' =>
      match encodeOne d with
      | inl bs =>
          match encodeAll v' with
          | inl r => inl (bs ++ r)
          | inr e => inr e
          end
      | inr e => inr e
      end
  end.

(** Modelled from the spec: the scalars of a payload, read tag by tag until
    the bytes are used up; an "unreadable tag" or a payload cut short is a
    [MalformedRecordError]. *)
Fixpoint decodeAll (b : list byte) : list Datum + error :=
  match b with
  | [] => inl []
  | flag :: tl =>
      if Z_of_byte flag =? NilFlag then
        match decodeAll tl with
        | inl ds => inl (KindNull :: ds)
        | inr e => inr e
        end
      else if (Z_of_byte flag =? intFlag) || (Z_of_byte flag =? uintFlag) then
        match tl with
        | b0 :: b1 :: b2 :: b3 :: b4 :: b5 :: b6 :: b7 :: rest =>
            let u := binary.Uint64 [b0; b1; b2; b3; b4; b5; b6; b7] in
            let d := if Z_of_byte flag =? intFlag
                     then KindInt64 (GoInt.of_uint64 (Z.lxor u signMask))
                     else KindUint64 u in
            match decodeAll rest with
            | inl ds => inl (d :: ds)
            | inr e => inr e
            end
        | _ => inr (errNew "insufficient bytes to decode value")
        end
      else inr (errNew "invalid encoded key flag")
  end.

(** Modelled from the spec: [codec.Decode(b, size)], which "decodes the
    L-byte payload into exactly [size] ordered scalars; fails with
    [MalformedRecordError] if decoding yields a different count or an
    unreadable tag" (section 4.1). *)
Definition Decode (b : list byte) (size : Z) : list Datum + error :=
  match decodeAll b with
  | inl ds => if len ds =? size then inl ds
              else inr (errNew "malformed record: wrong number of values")
  | inr e => inr e
  end.

End codec.

(** ** float64 *)

Module float64.

(** Every finite [float64] is an integer multiple of 2^-1074, the smallest
    positive one; a value is kept as that integer.  The operations round
    the exact result to 53 significant bits (or to a multiple of the unit,
    for the smallest values), to nearest and ties to even, which is what
    IEEE 754 prescribes where no overflow occurs; the operands of this
    program are 64-bit integers and the constant 100, whose quotients and
    products stay below 2^127. *)
Definition t : Type := Z.

Definition unit_exp : Z := 1074.
Definition one : Z := Z.shiftl 1 unit_exp.
Definition prec : Z := 53.

(** The integer nearest to [n / d], a tie going to the even one
    ([0 <= n], [0 < d]). *)
Definition nearest_even (n d : Z) : Z :=
  let q := n / d in
  let r := n mod d in
  if 2 * r <? d then q
  else if d <? 2 * r then q + 1
  else if Z.even q then q else q + 1.

(** The exponent, in units, of the last place of [n / d]. *)
Definition ulp_exp (n d : Z) : Z := Z.max 0 (Z.log2 (n / d) - (prec - 1)).

(** [n / d] units, rounded ([0 <= n], [0 < d]). *)
Definition round_pos (n d : Z) : Z :=
  let e := ulp_exp n d in
  Z.shiftl (nearest_even n (Z.shiftl d e)) e.

(** [n / d] units, rounded, for [0 < d]. *)
Definition round (n d : Z) : t :=
  if n <? 0 then - round_pos (- n) d else round_pos n d.

(** [float64(x)] for an integer [x]. *)
Definition of_int (x : Z) : t := round (x * one) 1.

(** [x * y]. *)
Definition mul (x y : t) : t := round (x * y) one.

(** [x / y] for [y <> 0] (the only divisor of this program is 100). *)
Definition div (x y : t) : t :=
  if y <? 0 then round (- (x * one)) (- y) else round (x * one) y.

(** [int(x)]: the fraction is discarded (truncation towards zero).  Where the
    result does not fit an [int] the language leaves the value to the
    implementation; amd64 gives the smallest [int]. *)
Definition to_int (x : t) : Z :=
  let z := Z.quot x one in
  if (GoInt.minInt <=? z) && (z <=? GoInt.maxInt) then z else GoInt.minInt.

End float64.

(** The same computations on the kernel's binary64 numbers, to compare the
    model above with. *)
Module hardware.

Definition of_int (x : Z) : float :=
  if x <? 0 then PrimFloat.opp (PrimFloat.of_uint63 (Uint63.of_Z (- x)))
  else PrimFloat.of_uint63 (Uint63.of_Z x).

(** The number of units 2^-1074 in a finite float. *)
Definition units (x : float) : option Z :=
  match Prim2SF x with
  | S754_zero _ => Some 0
  | S754_finite s m e =>
      let v := Z.shiftl (Z.pos m) (e + float64.unit_exp) in
      Some (if s then - v else v)
  | _ => None
  end.

Definition scaled (scale ratio : Z) : float :=
  PrimFloat.mul (of_int scale) (PrimFloat.div (of_int ratio) (of_int 100)).

End hardware.

(** ** math/rand *)

Module rand.

(** A [*rand.Rand]: the 63-bit values the source will produce, and how many
    of them were drawn. *)
Record Rand : Type := mkRand { draws : nat -> Z; pos : nat }.

(** [r.Int63()]: a non-negative 63-bit integer. *)
Definition Int63 (r : Rand) : Z * Rand :=
  (draws r (pos r) mod 2 ^ 63, mkRand (draws r) (S (pos r))).

(** [r.Int()]: on a 64-bit platform, the same draw as [Int63]. *)
Definition Int (r : Rand) : Z * Rand := Int63 r.

End rand.

(** ** cmd/benchsort *)

Import types.

Record comparableRow : Type := mkRow {
  key : list Datum;
  val : list Datum;
  handle : Z
}.

(** The package-level variables the functions below read and write. *)
Record Vars : Type := mkVars {
  scale : Z;
  keySize : Z;
  valSize : Z
}.

(** [for i := range s { s[i] = types.NewDatum(r.Int()) }] on a slice of [n]
    elements. *)
Fixpoint fillDatums (n : nat) (r : rand.Rand) : list Datum * rand.Rand :=
  match n with
  | O => ([], r)
  | S n' =>
      let '(x, r1) := rand.Int r in
      let '(ds, r2) := fillDatums n' r1 in
      (NewIntDatum x :: ds, r2)
  end.

(** [nextRow(r, keySize, valSize)].  [make] panics on a negative length. *)
Definition nextRow (r : rand.Rand) (keySize valSize : Z)
  : outcome comparableRow * rand.Rand :=
  if keySize <? 0 then (Panic "makeslice: len out of range", r) else
  let '(k, r1) := fillDatums (Z.to_nat keySize) r in
  if valSize <? 0 then (Panic "makeslice: len out of range", r1) else
  let '(v, r2) := fillDatums (Z.to_nat valSize) r1 in
  let '(h, r3) := rand.Int63 r2 in
  (Ok (mkRow k v h), r3).

(** [encodeRow(b, row)]: the returned slice and the returned error. *)
Definition encodeRow (b : list byte) (row : comparableRow)
  : list byte * option error :=
  match codec.EncodeKey [] (key row) with
  | inr e => (b, Some (errTrace e))
  | inl body1 =>
      match codec.EncodeKey body1 (val row) with
      | inr e => (b, Some (errTrace e))
      | inl body2 =>
          match codec.EncodeKey body2 [NewIntDatum (handle row)] with
          | inr e => (b, Some (errTrace e))
          | inl body =>
              let head := binary.PutUint64 (GoInt.to_uint64 (len body)) in
              ((b ++ head) ++ body, None)
          end
      end
  end.

(** The slice expression [s[lo:hi]]; the capacity of [s] is taken to be its
    length. *)
Definition slice {A : Type} (s : list A) (lo hi : Z) : outcome (list A) :=
  if (0 <=? lo) && (lo <=? hi) && (hi <=? len s)
  then Ok (firstn (Z.to_nat (hi - lo)) (skipn (Z.to_nat lo) s))
  else Panic "slice bounds out of range".

(** [decodeRow(fd)], reading the variables [keySize] and [valSize]: how the
    call ends, and the file afterwards. *)
Definition decodeRow (g : Vars) (fd : os.File)
  : outcome comparableRow * os.File :=
  let size := GoInt.add (GoInt.add (keySize g) (valSize g)) 1 in
  if size <? 0 then (Panic "makeslice: cap out of range", fd) else
  let '(data, err, fd1) := os.Read fd 8 in
  if negb (len data =? 8) then (Err (errNew "incorrect header"), fd1) else
  match err with
  | Some e => (Err (errTrace e), fd1)
  | None =>
      let head := os.fill data 8 in
      let rowSize := GoInt.of_uint64 (binary.Uint64 head) in
      if rowSize <? 0 then (Panic "makeslice: len out of range", fd1) else
      let '(data2, err2, fd2) := os.Read fd1 rowSize in
      if negb (len data2 =? rowSize) then (Err (errNew "incorrect row"), fd2)
      else
        match err2 with
        | Some e => (Err (errTrace e), fd2)
        | None =>
            let rowBytes := os.fill data2 rowSize in
            match codec.Decode rowBytes size with
            | inr e => (Err (errTrace e), fd2)
            | inl dcod =>
                let kv := GoInt.add (keySize g) (valSize g) in
                match slice dcod 0 (keySize g),
                      slice dcod (keySize g) kv,
                      slice dcod kv (len dcod) with
                | Ok k, Ok v, Ok (h :: _) =>
                    (Ok (mkRow k v (GetInt64 h)), fd2)
                | Ok _, Ok _, Ok [] => (Panic "index out of range", fd2)
                | _, _, _ => (Panic "slice bounds out of range", fd2)
                end
            end
        end
  end.

(** [encodeMeta(b, scale, keySize, valSize)]. *)
Definition encodeMeta (b : list byte) (scale keySize valSize : Z) : list byte :=
  let b1 := b ++ binary.PutUint64 (GoInt.to_uint64 scale) in
  let b2 := b1 ++ binary.PutUint64 (GoInt.to_uint64 keySize) in
  b2 ++ binary.PutUint64 (GoInt.to_uint64 valSize).

(** [decodeMeta(fd)]: the returned error, the variables and the file
    afterwards.  The variables are assigned one after the other, each before
    its check. *)
Definition decodeMeta (g : Vars) (fd : os.File)
  : option error * Vars * os.File :=
  let '(data, err, fd1) := os.Read fd 24 in
  let meta := os.fill data 24 in
  if negb (len data =? 24) then (Some (errNew "incorrect meta data"), g, fd1)
  else
    match err with
    | Some e => (Some (errTrace e), g, fd1)
    | None =>
        let g1 := mkVars (GoInt.of_uint64 (binary.Uint64 (firstn 8 meta)))
                         (keySize g) (valSize g) in
        if scale g1 <=? 0
        then (Some (errNew "number of rows must be positive"), g1, fd1)
        else
          let g2 :=
            mkVars (scale g1)
                   (GoInt.of_uint64
                      (binary.Uint64 (firstn 8 (skipn 8 meta))))
                   (valSize g1) in
          if keySize g2 <=? 0
          then (Some (errNew "key size must be positive"), g2, fd1)
          else
            let g3 :=
              mkVars (scale g2) (keySize g2)
                     (GoInt.of_uint64 (binary.Uint64 (skipn 16 meta))) in
            if valSize g3 <=? 0
            then (Some (errNew "value size must be positive"), g3, fd1)
            else (None, g3, fd1)
    end.

(** The loop of [export]: [n] more rows are generated and appended. *)
Fixpoint exportRows (n : nat) (g : Vars) (r : rand.Rand) (out : list byte)
  : outcome (list byte) :=
  match n with
  | O => Ok out
  | S n' =>
      match nextRow r (keySize g) (valSize g) with
      | (Ok row, r1) =>
          match encodeRow out row with
          | (_, Some e) => Err (errTrace e)
          | (out1, None) => exportRows n' g r1 out1
          end
      | (Err e, _) => Err e
      | (Panic m, _) => Panic m
      end
  end.

(** [export()], with the random source it seeds from the clock: the bytes
    written to data.out.  The counter runs from 1 to [scale]; failures of the
    file system are not modelled. *)
Definition export (g : Vars) (r : rand.Rand) : outcome (list byte) :=
  exportRows (Z.to_nat (scale g)) g r
             (encodeMeta [] (scale g) (keySize g) (valSize g)).

(** [int(float64(scale) * (float64(ratio) / 100.0))]. *)
Definition totalRows (scale ratio : Z) : Z :=
  float64.to_int
    (float64.mul (float64.of_int scale)
       (float64.div (float64.of_int ratio) (float64.of_int 100))).

(** The loop of [load]: [n] more rows are decoded and appended to [data]. *)
Fixpoint loadRows (n : nat) (g : Vars) (fd : os.File)
                  (data : list comparableRow)
  : outcome (list comparableRow) * os.File :=
  match n with
  | O => (Ok data, fd)
  | S n' =>
      match decodeRow g fd with
      | (Ok row, fd1) => loadRows n' g fd1 (data ++ [row])
      | (Err e, fd1) => (Err (errTrace e), fd1)
      | (Panic m, fd1) => (Panic m, fd1)
      end
  end.

(** [load(ratio)] where data.out holds [file] ([None]: there is no such
    file): how the call ends, the variables and the open file afterwards.
    Once [decodeMeta] has passed, [scale] is positive and the [make] of the
    result slice cannot panic. *)
Definition load (g : Vars) (file : option (list byte)) (ratio : Z)
  : outcome (list comparableRow) * Vars * os.File :=
  match file with
  | None => (Err (errNew "data file (data.out) does not exist"), g, [])
  | Some bytes =>
      match decodeMeta g bytes with
      | (Some e, g1, fd1) => (Err (errTrace e), g1, fd1)
      | (None, g1, fd1) =>
          let '(res, fd2) :=
            loadRows (Z.to_nat (totalRows (scale g1) ratio)) g1 fd1 [] in
          (res, g1, fd2)
      end
  end.

(** ** The commands of [main] *)

(** The [gen] branch of [main], from its sanity checks on: [g] holds the
    flags [scale], [keySize] and [valSize], [dirExists] tells whether
    [os.Stat(tmpDir)] finds the directory (its other failures are not
    modelled).  [log.Fatal(err)] ends the process: the command ends with
    [Err err] and data.out is not written.  Otherwise the bytes written to
    data.out are returned. *)
Definition main_gen (g : Vars) (dirExists : bool) (r : rand.Rand)
  : outcome (list byte) :=
  if keySize g <=? 0 then Err (errNew "key size must be positive") else
  if valSize g <=? 0 then Err (errNew "value size must be positive") else
  if scale g <=? 0 then Err (errNew "scale must be positive") else
  if negb dirExists then Err (errNew "tmpDir does not exist") else
  export g r.

(** The [run] branch of [main], from its sanity checks on: the flags
    [bufSize], [inputRatio] and [outputRatio], the variables [g] as they are
    when the command starts, and the content of data.out.  The rows that
    [load] returned are the result; [main] prints their number. *)
Definition main_run (g : Vars) (bufSize inputRatio outputRatio : Z)
    (dirExists : bool) (file : option (list byte))
  : outcome (list comparableRow) :=
  if bufSize <=? 0 then Err (errNew "buffer size must be positive") else
  if (inputRatio <? 0) || (100 <? inputRatio)
  then Err (errNew "input ratio must between 0 and 100 (inclusive)") else
  if (outputRatio <? 0) || (100 <? outputRatio)
  then Err (errNew "output ratio must between 0 and 100 (inclusive)") else
  if negb dirExists then Err (errNew "tmpDir does not exist") else
  fst (fst (load g file inputRatio)).

(** ** Notions the statements below use *)

(** The rows successive calls of [nextRow] return, [n] of them. *)
Fixpoint nextRows (n : nat) (r : rand.Rand) (keySize valSize : Z)
  : list comparableRow :=
  match n with
  | O => []
  | S n' =>
      match nextRow r keySize valSize with
      | (Ok row, r1) => row :: nextRows n' r1 keySize valSize
      | _ => []
      end
  end.

(** [encodeRow] applied to each row in turn, as the loop of [export] does. *)
Fixpoint writeRows (b : list byte) (rows : list comparableRow)
  : list byte * option error :=
  match rows with
  | [] => (b, None)
  | row :: rows' =>
      match encodeRow b row with
      | (b1, None) => writeRows b1 rows'
      | (b1, Some e) => (b1, Some e)
      end
  end.

(** The record of one row: what [encodeRow] appends for it. *)
Definition recordOf (row : comparableRow) : list byte :=
  fst (encodeRow [] row).

(** The records of [rows], one after the other. *)
Definition records (rows : list comparableRow) : list byte :=
  List.concat (map recordOf rows).

(** A row of a data set whose keys have [k] fields and whose values have [v]:
    the field counts are [k] and [v] and every value fits its 64-bit type. *)
Definition rowShape (k v : Z) (row : comparableRow) : Prop :=
  len (key row) = k /\ len (val row) = v /\
  Forall valid (key row) /\ Forall valid (val row) /\
  GoInt.is_int (handle row).

(** A well-formed data set file: the header of [(s, k, v)] followed by the
    records of the [s] rows [rows], as [encodeMeta] and [encodeRow] write
    them; like every byte slice of the program it has at most [maxInt]
    bytes. *)
Record wellFormed (file : list byte) (s k v : Z) (rows : list comparableRow)
  : Prop := {
  wf_scale : 0 < s;
  wf_keySize : 0 < k;
  wf_valSize : 0 < v;
  wf_count : len rows = s;
  wf_rows : Forall (rowShape k v) rows;
  wf_bytes : writeRows (encodeMeta [] s k v) rows = (file, None);
  wf_size : len file <= GoInt.maxInt
}.

(** Successive calls of [decodeRow] that succeed: the rows they return and
    the file afterwards. *)
Inductive decodes (g : Vars) : os.File -> list comparableRow -> os.File -> Prop :=
| decodes_nil : forall fd, decodes g fd [] fd
| decodes_cons : forall fd row fd1 rows fd2,
    decodeRow g fd = (Ok row, fd1) ->
    decodes g fd1 rows fd2 ->
    decodes g fd (row :: rows) fd2.

(** [len(data)] for the slice a call returned; with an error the slice is
    [nil]. *)
Definition numRows (res : outcome (list comparableRow)) : Z :=
  match res with
  | Ok data => len data
  | _ => 0
  end.

(** [float64(ratio) / 100.0]. *)
Definition fraction (ratio : Z) : float64.t :=
  float64.div (float64.of_int ratio) (float64.of_int 100).

(** A value [nextRow] generates: a signed integer datum that is not negative. *)
Definition intDatum (d : Datum) : Prop :=
  exists x, d = KindInt64 x /\ 0 <= x < 2 ^ 63.

(** Whether the [make] of [decodeRow] gets a capacity that is not negative. *)
Definition capOk (g : Vars) : Prop :=
  0 <= GoInt.add (GoInt.add (keySize g) (valSize g)) 1.

(** ** Inputs the statements are tried on *)

Definition row_2_1 : comparableRow :=
  mkRow [KindInt64 5; KindInt64 (-7)] [KindUint64 (2 ^ 64 - 1)] (-1).

Definition row_1_1 : comparableRow := mkRow [KindInt64 1] [KindInt64 2] 3.

(** A header whose key size is zero. *)
Definition header_zero_key : list byte :=
  encodeMeta [] 10 0 1.

(** [s] copies of one row, and the file that holds them. *)
Definition manyRows (s : Z) : list comparableRow := repeat row_1_1 (Z.to_nat s).

Definition manyFile (s : Z) : list byte :=
  encodeMeta [] s 1 1 ++ records (manyRows s).

(** Whether the model of [float64] and the kernel's binary64 numbers give the
    same value for [float64(scale) * (float64(ratio) / 100.0)]. *)
Definition agrees (scale ratio : Z) : bool :=
  match hardware.units (hardware.scaled scale ratio) with
  | Some u =>
      u =? float64.mul (float64.of_int scale)
             (float64.div (float64.of_int ratio) (float64.of_int 100))
  | None => false
  end.

(** * Properties *)

(** ** Bytes and big-endian integers *)

Lemma Z_of_byte_range (b : byte) : 0 <= Z_of_byte b < 256.
Proof.
  unfold Z_of_byte. pose proof (Byte.to_N_bounded b) as H. lia.
Qed.

Lemma Z_of_byte_of_Z (z : Z) : Z_of_byte (byte_of_Z z) = z mod 256.
Proof.
  unfold Z_of_byte, byte_of_Z.
  assert (Hr : 0 <= z mod 256 < 256) by (apply Z.mod_pos_bound; lia).
  destruct (Byte.of_N (Z.to_N (z mod 256))) as [b|] eqn:E.
  - apply Byte.to_of_N in E. rewrite E. lia.
  - apply Byte.of_N_None_iff in E. lia.
Qed.

Lemma byte_of_Z_of_byte (b : byte) : byte_of_Z (Z_of_byte b) = b.
Proof.
  unfold byte_of_Z. rewrite Z.mod_small by apply Z_of_byte_range.
  unfold Z_of_byte. rewrite N2Z.id, Byte.of_to_N. reflexivity.
Qed.

Lemma testbit_byte (b : byte) (n : Z) :
  Z.testbit (Z_of_byte b) n = (0 <=? n) && (n <? 8) && Z.testbit (Z_of_byte b) n.
Proof.
  destruct (Z.leb_spec 0 n) as [Hn|Hn]; [| apply Z.testbit_neg_r; assumption ].
  pose proof (Z_of_byte_range b) as H. simpl.
  rewrite <- (Z.mod_small (Z_of_byte b) (2 ^ 8)) at 1 by (change (2 ^ 8) with 256; lia).
  apply Z.testbit_mod_pow2. lia.
Qed.

Ltac split_cmp :=
  repeat match goal with
  | |- context [ ?a <? ?b ] => destruct (Z.ltb_spec a b); try lia
  | |- context [ ?a <=? ?b ] => destruct (Z.leb_spec a b); try lia
  end.

Lemma Uint64_testbit (b : list byte) (n : Z) : 0 <= n ->
  Z.testbit (binary.Uint64 b) n =
  if n <? 8 then Z.testbit (binary.at_ b 7) n
  else if n <? 16 then Z.testbit (binary.at_ b 6) (n - 8)
  else if n <? 24 then Z.testbit (binary.at_ b 5) (n - 16)
  else if n <? 32 then Z.testbit (binary.at_ b 4) (n - 24)
  else if n <? 40 then Z.testbit (binary.at_ b 3) (n - 32)
  else if n <? 48 then Z.testbit (binary.at_ b 2) (n - 40)
  else if n <? 56 then Z.testbit (binary.at_ b 1) (n - 48)
  else if n <? 64 then Z.testbit (binary.at_ b 0) (n - 56)
  else false.
Proof.
  intros Hn. unfold binary.Uint64.
  rewrite !Z.lor_spec, !Z.shiftl_spec by assumption.
  unfold binary.at_.
  rewrite (testbit_byte (nth 7 b x00) n), (testbit_byte (nth 6 b x00) (n - 8)),
    (testbit_byte (nth 5 b x00) (n - 16)), (testbit_byte (nth 4 b x00) (n - 24)),
    (testbit_byte (nth 3 b x00) (n - 32)), (testbit_byte (nth 2 b x00) (n - 40)),
    (testbit_byte (nth 1 b x00) (n - 48)), (testbit_byte (nth 0 b x00) (n - 56)).
  split_cmp; simpl; rewrite ?orb_false_r; reflexivity.
Qed.

Lemma Uint64_range (b : list byte) : 0 <= binary.Uint64 b < 2 ^ 64.
Proof.
  assert (H0 : 0 <= binary.Uint64 b).
  { unfold binary.Uint64, binary.at_.
    repeat (apply Z.lor_nonneg; split); try apply Z.shiftl_nonneg;
      apply Z_of_byte_range. }
  split; [ assumption |].
  rewrite <- (Z.mod_small (binary.Uint64 b) (2 ^ 64)); [ apply Z.mod_pos_bound; lia |].
  split; [ assumption |].
  assert (E : binary.Uint64 b = binary.Uint64 b mod 2 ^ 64).
  { apply Z.bits_inj'. intros n Hn.
    rewrite Z.testbit_mod_pow2 by lia.
    rewrite Uint64_testbit by assumption.
    split_cmp; reflexivity. }
  rewrite E. apply Z.mod_pos_bound. lia.
Qed.

Lemma Uint64_PutUint64 (v : Z) : binary.Uint64 (binary.PutUint64 v) = v mod 2 ^ 64.
Proof.
  apply Z.bits_inj'. intros n Hn.
  rewrite Uint64_testbit by assumption.
  rewrite Z.testbit_mod_pow2 by lia.
  unfold binary.PutUint64, binary.at_. cbn [nth].
  rewrite !Z_of_byte_of_Z. change 256 with (2 ^ 8).
  rewrite !Z.testbit_mod_pow2 by lia.
  split_cmp; simpl; try reflexivity;
    rewrite Z.shiftr_spec by lia; f_equal; lia.
Qed.

Lemma of_to_uint64 (z : Z) : GoInt.is_int z -> GoInt.of_uint64 (GoInt.to_uint64 z) = z.
Proof.
  unfold GoInt.is_int, GoInt.minInt, GoInt.maxInt, GoInt.of_uint64, GoInt.to_uint64.
  intros H. rewrite Z.mod_mod by lia.
  destruct (Z.ltb_spec (z mod 2 ^ 64) (2 ^ 63)) as [L|L].
  - destruct (Z.lt_ge_cases z 0) as [N|N].
    + rewrite <- (Z.mod_add z 1) in L by lia.
      rewrite Z.mod_small in L by lia. lia.
    + apply Z.mod_small. lia.
  - destruct (Z.lt_ge_cases z 0) as [N|N].
    + rewrite <- (Z.mod_add z 1) by lia. rewrite Z.mod_small by lia. lia.
    + rewrite Z.mod_small in L by lia. lia.
Qed.

Lemma of_uint64_small (u : Z) : 0 <= u < 2 ^ 63 -> GoInt.of_uint64 u = u.
Proof.
  intros H. unfold GoInt.of_uint64. rewrite Z.mod_small by lia.
  destruct (Z.ltb_spec u (2 ^ 63)); lia.
Qed.

Lemma of_uint64_is_int (u : Z) : GoInt.is_int (GoInt.of_uint64 u).
Proof.
  unfold GoInt.is_int, GoInt.minInt, GoInt.maxInt, GoInt.of_uint64.
  pose proof (Z.mod_pos_bound u (2 ^ 64)) as H.
  destruct (Z.ltb_spec (u mod 2 ^ 64) (2 ^ 63)); lia.
Qed.

Lemma lxor_signMask_range (u : Z) : 0 <= u < 2 ^ 64 -> 0 <= Z.lxor u codec.signMask < 2 ^ 64.
Proof.
  intros H. unfold codec.signMask.
  assert (N : 0 <= Z.lxor u (2 ^ 63)) by (apply Z.lxor_nonneg; lia).
  split; [ assumption |].
  destruct (Z.eq_dec (Z.lxor u (2 ^ 63)) 0) as [E|E]; [ lia |].
  apply Z.log2_lt_pow2; [ lia |].
  eapply Z.le_lt_trans; [ apply Z.log2_lxor; lia |].
  apply Z.max_lub_lt.
  - destruct (Z.eq_dec u 0) as [->|]; [ simpl; lia |]. apply Z.log2_lt_pow2; lia.
  - rewrite Z.log2_pow2; lia.
Qed.

Lemma lxor_signMask_twice (u : Z) : Z.lxor (Z.lxor u codec.signMask) codec.signMask = u.
Proof. rewrite Z.lxor_assoc, Z.lxor_nilpotent, Z.lxor_0_r. reflexivity. Qed.

(** ** The scalar codec *)

Lemma len_app {A} (a b : list A) : len (a ++ b) = len a + len b.
Proof. unfold len. rewrite length_app. lia. Qed.

Lemma len_nonneg {A} (a : list A) : 0 <= len a.
Proof. unfold len. lia. Qed.

Lemma len_PutUint64 (v : Z) : len (binary.PutUint64 v) = 8.
Proof. reflexivity. Qed.

Lemma Read_app (a r : list byte) :
  os.Read (a ++ r) (len a) = (a, None, r).
Proof.
  unfold os.Read.
  destruct (Z.leb_spec (len a) 0) as [H|H].
  - destruct a; [ reflexivity | unfold len in H; simpl in H; lia ].
  - destruct a as [|x a]; [ unfold len in H; simpl in H; lia |].
    change ((x :: a) ++ r) with (x :: (a ++ r)).
    cbv match. change (x :: a ++ r) with ((x :: a) ++ r).
    rewrite len_app.
    destruct (Z.leb_spec (len (x :: a)) (len (x :: a) + len r)) as [L|L];
      [| pose proof (len_nonneg r); lia ].
    unfold len. rewrite Nat2Z.id.
    rewrite firstn_app, skipn_app, Nat.sub_diag, firstn_all, skipn_all.
    simpl. rewrite app_nil_r. reflexivity.
Qed.

Lemma fill_full (data : list byte) : os.fill data (len data) = data.
Proof.
  unfold os.fill, len. rewrite Nat2Z.id, Nat.sub_diag. apply app_nil_r.
Qed.

(** Decoding the encoding of one scalar. *)
Lemma decodeAll_encodeOne (d : Datum) (bs rest : list byte) :
  valid d -> codec.encodeOne d = inl bs ->
  codec.decodeAll (bs ++ rest) =
  match codec.decodeAll rest with
  | inl ds => inl (d :: ds)
  | inr e => inr e
  end.
Proof.
  intros V E. destruct d as [| i | u |]; simpl in E; inversion E; subst; clear E.
  - reflexivity.
  - cbn [app]. unfold binary.PutUint64. cbn [app].
    cbn [codec.decodeAll].
    change (Z_of_byte (byte_of_Z codec.intFlag) =? codec.NilFlag) with false.
    change (Z_of_byte (byte_of_Z codec.intFlag) =? codec.intFlag) with true.
    cbv iota. cbn [orb].
    match goal with
    | |- context [ binary.Uint64 ?l ] =>
        change l with (binary.PutUint64 (Z.lxor (GoInt.to_uint64 i) codec.signMask))
    end.
    rewrite Uint64_PutUint64.
    assert (R : 0 <= GoInt.to_uint64 i < 2 ^ 64)
      by (apply Z.mod_pos_bound; lia).
    rewrite Z.mod_small by (apply lxor_signMask_range; assumption).
    rewrite lxor_signMask_twice, of_to_uint64 by assumption.
    reflexivity.
  - cbn [app]. unfold binary.PutUint64. cbn [app].
    cbn [codec.decodeAll].
    change (Z_of_byte (byte_of_Z codec.uintFlag) =? codec.NilFlag) with false.
    change (Z_of_byte (byte_of_Z codec.uintFlag) =? codec.intFlag) with false.
    change (Z_of_byte (byte_of_Z codec.uintFlag) =? codec.uintFlag) with true.
    cbv iota. cbn [orb].
    match goal with
    | |- context [ binary.Uint64 ?l ] =>
        change l with (binary.PutUint64 u)
    end.
    rewrite Uint64_PutUint64.
    rewrite Z.mod_small by exact V.
    reflexivity.
Qed.

Lemma EncodeKey_spec (v : list Datum) : forall b,
  codec.EncodeKey b v =
  match codec.encodeAll v with
  | inl bs => inl (b ++ bs)
  | inr e => inr e
  end.
Proof.
  induction v as [|d v IH]; intros b; simpl.
  - rewrite app_nil_r. reflexivity.
  - destruct (codec.encodeOne d) as [bs|e]; [| reflexivity ].
    rewrite IH. destruct (codec.encodeAll v) as [r|e]; [| reflexivity ].
    rewrite app_assoc. reflexivity.
Qed.

Lemma decodeAll_encodeAll (v : list Datum) : forall bs rest,
  Forall valid v -> codec.encodeAll v = inl bs ->
  codec.decodeAll (bs ++ rest) =
  match codec.decodeAll rest with
  | inl ds => inl (v ++ ds)
  | inr e => inr e
  end.
Proof.
  induction v as [|d v IH]; intros bs rest V E; simpl in E.
  - inversion E; subst. simpl. destruct (codec.decodeAll rest); reflexivity.
  - destruct (codec.encodeOne d) as [b1|e] eqn:Ed; [| discriminate ].
    destruct (codec.encodeAll v) as [r|e] eqn:Ev; [| discriminate ].
    inversion E; subst; clear E. inversion V; subst.
    rewrite <- app_assoc.
    rewrite (decodeAll_encodeOne d b1 (r ++ rest)) by assumption.
    rewrite (IH r rest) by (assumption || reflexivity).
    destruct (codec.decodeAll rest); reflexivity.
Qed.

Lemma encodeAll_app (v w : list Datum) :
  codec.encodeAll (v ++ w) =
  match codec.encodeAll v with
  | inl a =>
      match codec.encodeAll w with
      | inl b => inl (a ++ b)
      | inr e => inr e
      end
  | inr e => inr e
  end.
Proof.
  induction v as [|d v IH]; simpl.
  - destruct (codec.encodeAll w); reflexivity.
  - destruct (codec.encodeOne d) as [b1|e]; [| reflexivity ].
    rewrite IH. destruct (codec.encodeAll v) as [r|e]; [| reflexivity ].
    destruct (codec.encodeAll w) as [r'|e]; [| reflexivity ].
    rewrite app_assoc. reflexivity.
Qed.

Lemma encodeAll_len_ge (v : list Datum) : forall bs,
  codec.encodeAll v = inl bs -> len v <= len bs.
Proof.
  induction v as [|d v IH]; intros bs E; simpl in E.
  - inversion E. unfold len; simpl; lia.
  - destruct (codec.encodeOne d) as [b1|e] eqn:Ed; [| discriminate ].
    destruct (codec.encodeAll v) as [r|e]; [| discriminate ].
    inversion E; subst. specialize (IH r eq_refl). rewrite len_app.
    assert (1 <= len b1).
    { destruct d; simpl in Ed; inversion Ed; unfold len; simpl; lia. }
    unfold len in *. simpl. lia.
Qed.

(** What [encodeRow] returns, in terms of the payload of the row. *)
Lemma encodeRow_eq (b : list byte) (row : comparableRow) :
  encodeRow b row =
  match codec.encodeAll (key row ++ val row ++ [NewIntDatum (handle row)]) with
  | inl body =>
      (b ++ binary.PutUint64 (GoInt.to_uint64 (len body)) ++ body, None)
  | inr e => (b, Some (errTrace e))
  end.
Proof.
  unfold encodeRow. rewrite !encodeAll_app, !EncodeKey_spec.
  destruct (codec.encodeAll (key row)) as [b1|e]; [| reflexivity ].
  rewrite EncodeKey_spec.
  destruct (codec.encodeAll (val row)) as [b2|e]; [| reflexivity ].
  rewrite EncodeKey_spec.
  destruct (codec.encodeAll [NewIntDatum (handle row)]) as [b3|e];
    [| reflexivity ].
  simpl. rewrite <- !app_assoc. reflexivity.
Qed.

Lemma encodeRow_ok (b : list byte) (row : comparableRow) (out : list byte) :
  encodeRow b row = (out, None) ->
  exists body,
    codec.encodeAll (key row ++ val row ++ [NewIntDatum (handle row)]) = inl body
    /\ out = b ++ binary.PutUint64 (GoInt.to_uint64 (len body)) ++ body.
Proof.
  rewrite encodeRow_eq.
  destruct (codec.encodeAll _) as [body|e]; [| discriminate ].
  intros E. inversion E. exists body. split; reflexivity.
Qed.

Lemma encodeRow_recordOf (b : list byte) (row : comparableRow) (out : list byte) :
  encodeRow b row = (out, None) ->
  out = b ++ recordOf row /\ encodeRow [] row = (recordOf row, None).
Proof.
  unfold recordOf. rewrite !encodeRow_eq.
  destruct (codec.encodeAll _) as [body|e]; [| discriminate ].
  intros E. inversion E. split; reflexivity.
Qed.

(** ** One record *)

Lemma add_small (x y : Z) :
  0 <= x + y <= GoInt.maxInt -> GoInt.add x y = x + y.
Proof.
  unfold GoInt.add, GoInt.maxInt. intros H. apply of_uint64_small. lia.
Qed.

Lemma slice_spec {A} (pre mid post : list A) :
  slice (pre ++ mid ++ post) (len pre) (len pre + len mid) = Ok mid.
Proof.
  unfold slice.
  pose proof (len_nonneg pre). pose proof (len_nonneg mid).
  pose proof (len_nonneg post).
  rewrite !len_app.
  destruct (Z.leb_spec 0 (len pre)); [| lia ].
  destruct (Z.leb_spec (len pre) (len pre + len mid)); [| lia ].
  destruct (Z.leb_spec (len pre + len mid) (len pre + (len mid + len post))); [| lia ].
  simpl. f_equal.
  replace (len pre + len mid - len pre) with (len mid) by lia.
  unfold len. rewrite !Nat2Z.id.
  rewrite skipn_app, skipn_all, Nat.sub_diag. simpl.
  rewrite firstn_app, firstn_all, Nat.sub_diag. simpl. apply app_nil_r.
Qed.

(** The record [encodeRow] wrote is read back by [decodeRow]. *)
Lemma decodeRow_record (g : Vars) (row : comparableRow) (body rest : list byte) :
  len (key row) = keySize g -> len (val row) = valSize g ->
  Forall valid (key row) -> Forall valid (val row) ->
  GoInt.is_int (handle row) ->
  codec.encodeAll (key row ++ val row ++ [NewIntDatum (handle row)]) = inl body ->
  len body <= GoInt.maxInt ->
  decodeRow g ((binary.PutUint64 (GoInt.to_uint64 (len body)) ++ body) ++ rest)
  = (Ok row, rest).
Proof.
  intros Hk Hv Vk Vv Vh E Hlen.
  pose proof (encodeAll_len_ge _ _ E) as Hge.
  rewrite !len_app in Hge. change (len [NewIntDatum (handle row)]) with 1 in Hge.
  pose proof (len_nonneg (key row)). pose proof (len_nonneg (val row)).
  unfold GoInt.maxInt in Hlen.
  unfold decodeRow. rewrite <- Hk, <- Hv.
  rewrite (add_small (len (key row)) (len (val row))) by (unfold GoInt.maxInt; lia).
  rewrite add_small by (unfold GoInt.maxInt; lia).
  destruct (Z.ltb_spec (len (key row) + len (val row) + 1) 0); [ lia |].
  rewrite <- app_assoc.
  change 8 with (len (binary.PutUint64 (GoInt.to_uint64 (len body)))) at 1.
  rewrite Read_app. cbv beta iota.
  rewrite len_PutUint64. cbn [Z.eqb Pos.eqb negb].
  change 8 with (len (binary.PutUint64 (GoInt.to_uint64 (len body)))).
  rewrite fill_full, Uint64_PutUint64.
  unfold GoInt.to_uint64. rewrite Z.mod_mod by lia.
  fold (GoInt.to_uint64 (len body)).
  replace (GoInt.of_uint64 (GoInt.to_uint64 (len body))) with (len body).
  2:{ symmetry. apply of_to_uint64. unfold GoInt.is_int, GoInt.minInt, GoInt.maxInt.
      pose proof (len_nonneg body). lia. }
  destruct (Z.ltb_spec (len body) 0); [ pose proof (len_nonneg body); lia |].
  rewrite Read_app. cbv beta iota. rewrite Z.eqb_refl. cbn [negb].
  rewrite fill_full.
  unfold codec.Decode.
  rewrite <- (app_nil_r body) at 1.
  rewrite (decodeAll_encodeAll (key row ++ val row ++ [NewIntDatum (handle row)]) body []) ; [| | exact E ].
  2:{ apply Forall_app; split; [ assumption |]. apply Forall_app; split; [ assumption |].
      constructor; [ exact Vh | constructor ]. }
  cbn [codec.decodeAll]. rewrite app_nil_r.
  rewrite !len_app. change (len [NewIntDatum (handle row)]) with 1.
  replace (len (key row) + (len (val row) + 1) =? len (key row) + len (val row) + 1) with true
    by (symmetry; apply Z.eqb_eq; lia).
  pose proof (slice_spec [] (key row) (val row ++ [NewIntDatum (handle row)])) as S1.
  change (len []) with 0 in S1. rewrite Z.add_0_l in S1. cbn [app] in S1.
  rewrite S1.
  rewrite (slice_spec (key row) (val row) [NewIntDatum (handle row)]).
  pose proof (slice_spec (key row ++ val row) [NewIntDatum (handle row)] []) as S3.
  rewrite <- app_assoc in S3. rewrite app_nil_r in S3.
  rewrite len_app in S3. change (len [NewIntDatum (handle row)]) with 1 in S3.
  replace (len (key row) + len (val row) + 1) with (len (key row) + (len (val row) + 1)) in S3 by lia.
  rewrite !len_app. change (len [NewIntDatum (handle row)]) with 1.
  rewrite S3.
  destruct row; reflexivity.
Qed.

(** ** Rounding *)

Module float64_facts.
Import float64.

Lemma nearest_even_bounds (n d : Z) : 0 <= n -> 0 < d ->
  let k := nearest_even n d in
  2 * k * d - d <= 2 * n <= 2 * k * d + d
  /\ (2 * n = 2 * k * d + d -> Z.even k = true)
  /\ (2 * n = 2 * k * d - d -> Z.even k = true).
Proof.
  intros Hn Hd. unfold nearest_even.
  pose proof (Z.div_mod n d ltac:(lia)) as E.
  pose proof (Z.mod_pos_bound n d Hd) as R.
  set (q := n / d) in *. set (r := n mod d) in *.
  destruct (Z.ltb_spec (2 * r) d) as [A|A]; [ cbv zeta; nia |].
  destruct (Z.ltb_spec d (2 * r)) as [B|B]; [ cbv zeta; nia |].
  assert (T : 2 * r = d) by lia.
  destruct (Z.even q) eqn:Ev; cbv zeta.
  - repeat split; try nia. intros _. exact Ev.
  - repeat split; try nia. intros _.
    rewrite Z.even_add, Ev. reflexivity.
Qed.

Lemma nearest_even_mono (n1 d1 n2 d2 : Z) :
  0 <= n1 -> 0 < d1 -> 0 <= n2 -> 0 < d2 -> n1 * d2 <= n2 * d1 ->
  nearest_even n1 d1 <= nearest_even n2 d2.
Proof.
  intros Hn1 Hd1 Hn2 Hd2 Hle.
  destruct (nearest_even_bounds n1 d1 Hn1 Hd1) as ((L1 & U1) & T1 & T1').
  destruct (nearest_even_bounds n2 d2 Hn2 Hd2) as ((L2 & U2) & T2 & T2').
  set (k1 := nearest_even n1 d1) in *. set (k2 := nearest_even n2 d2) in *.
  destruct (Z.le_gt_cases k1 k2) as [|G]; [ assumption | exfalso ].
  assert (P : 0 < d1 * d2) by nia.
  assert (A : (2 * k1 - 1) * (d1 * d2) <= 2 * (n1 * d2)) by nia.
  assert (B : 2 * (n2 * d1) <= (2 * k2 + 1) * (d1 * d2)) by nia.
  assert (C : (2 * k1 - 1) * (d1 * d2) <= (2 * k2 + 1) * (d1 * d2)) by lia.
  assert (K : k1 = k2 + 1) by nia.
  assert (E1 : 2 * n1 = 2 * k1 * d1 - d1) by nia.
  assert (E2 : 2 * n2 = 2 * k2 * d2 + d2) by nia.
  specialize (T1' E1). specialize (T2 E2).
  rewrite K, Z.even_add, T2 in T1'. discriminate.
Qed.

Lemma nearest_even_exact (k d : Z) : 0 < d -> nearest_even (k * d) d = k.
Proof.
  intros Hd. unfold nearest_even.
  rewrite Z.div_mul, Z.mod_mul by lia.
  destruct (Z.ltb_spec (2 * 0) d); [ reflexivity | lia ].
Qed.

Lemma ulp_exp_nonneg (n d : Z) : 0 <= ulp_exp n d.
Proof. unfold ulp_exp. lia. Qed.

Lemma round_pos_eq (n d : Z) :
  round_pos n d = nearest_even n (d * 2 ^ ulp_exp n d) * 2 ^ ulp_exp n d.
Proof.
  unfold round_pos. cbv zeta.
  rewrite !Z.shiftl_mul_pow2 by apply ulp_exp_nonneg. reflexivity.
Qed.

Lemma one_eq : one = 2 ^ 1074.
Proof. reflexivity. Qed.

Lemma ulp_exp_mono (n1 d1 n2 d2 : Z) :
  0 <= n1 -> 0 < d1 -> 0 <= n2 -> 0 < d2 -> n1 * d2 <= n2 * d1 ->
  ulp_exp n1 d1 <= ulp_exp n2 d2.
Proof.
  intros Hn1 Hd1 Hn2 Hd2 Hle. unfold ulp_exp.
  assert (Q : n1 / d1 <= n2 / d2).
  { apply Z.div_le_lower_bound; [ lia |].
    pose proof (Z.mul_div_le n1 d1 Hd1).
    assert (d1 * (d2 * (n1 / d1)) <= d1 * n2) by nia.
    nia. }
  pose proof (Z.log2_le_mono _ _ Q). lia.
Qed.

(** The rounded value is below the next power of two. *)
Lemma round_pos_upper (n d : Z) : 0 <= n -> 0 < d ->
  round_pos n d <= 2 ^ (prec + ulp_exp n d).
Proof.
  intros Hn Hd. rewrite round_pos_eq.
  set (e := ulp_exp n d).
  assert (He : 0 <= e) by apply ulp_exp_nonneg.
  assert (P : 0 < 2 ^ e) by (apply Z.pow_pos_nonneg; lia).
  assert (Q : n / d < 2 ^ (prec + e)).
  { destruct (Z.eq_dec (n / d) 0) as [Z0|NZ].
    - rewrite Z0. apply Z.pow_pos_nonneg; unfold prec; lia.
    - assert (0 <= n / d) by (apply Z.div_pos; lia).
      apply Z.log2_lt_pow2; [ lia |].
      unfold e, ulp_exp, prec. lia. }
  assert (N : n < d * 2 ^ (prec + e)).
  { pose proof (Z.div_mod n d ltac:(lia)). pose proof (Z.mod_pos_bound n d Hd). nia. }
  rewrite Z.pow_add_r in * by (unfold prec; lia).
  assert (M : nearest_even n (d * 2 ^ e) <= nearest_even (2 ^ prec * (d * 2 ^ e)) (d * 2 ^ e)).
  { apply nearest_even_mono; nia. }
  rewrite nearest_even_exact in M by nia.
  nia.
Qed.

(** Above the smallest binade the rounded value keeps 53 significant bits. *)
Lemma round_pos_lower (n d : Z) : 0 <= n -> 0 < d -> 0 < ulp_exp n d ->
  2 ^ (prec - 1 + ulp_exp n d) <= round_pos n d.
Proof.
  intros Hn Hd Hpos. rewrite round_pos_eq.
  set (e := ulp_exp n d) in *.
  assert (P : 0 < 2 ^ e) by (apply Z.pow_pos_nonneg; lia).
  assert (E : e = Z.log2 (n / d) - (prec - 1)) by (unfold e, ulp_exp in *; lia).
  assert (Q0 : 0 < n / d).
  { destruct (Z.lt_trichotomy (n / d) 0) as [L|[Z0|G]]; [ | | assumption ].
    - pose proof (Z.div_pos n d Hn Hd). lia.
    - rewrite Z0 in E. simpl in E. unfold prec in E. lia. }
  assert (Q : 2 ^ (prec - 1 + e) <= n / d).
  { apply Z.log2_le_pow2; [ assumption | lia ]. }
  assert (N : d * 2 ^ (prec - 1 + e) <= n).
  { pose proof (Z.mul_div_le n d Hd). nia. }
  rewrite Z.pow_add_r in * by (unfold prec; lia).
  assert (M : nearest_even (2 ^ (prec - 1) * (d * 2 ^ e)) (d * 2 ^ e) <= nearest_even n (d * 2 ^ e)).
  { apply nearest_even_mono; try nia. assert (0 < 2 ^ (prec - 1)) by (apply Z.pow_pos_nonneg; unfold prec; lia). nia. }
  rewrite nearest_even_exact in M by nia.
  nia.
Qed.


(** Rounding is monotone. *)
Lemma round_pos_mono (n1 d1 n2 d2 : Z) :
  0 <= n1 -> 0 < d1 -> 0 <= n2 -> 0 < d2 -> n1 * d2 <= n2 * d1 ->
  round_pos n1 d1 <= round_pos n2 d2.
Proof.
  intros Hn1 Hd1 Hn2 Hd2 Hle.
  pose proof (ulp_exp_mono _ _ _ _ Hn1 Hd1 Hn2 Hd2 Hle) as He.
  pose proof (ulp_exp_nonneg n1 d1) as He1.
  destruct (Z.eq_dec (ulp_exp n1 d1) (ulp_exp n2 d2)) as [Eq|Ne].
  - rewrite !round_pos_eq, <- Eq.
    set (e := ulp_exp n1 d1) in *.
    assert (P : 0 < 2 ^ e) by (apply Z.pow_pos_nonneg; lia).
    apply Z.mul_le_mono_nonneg_r; [ lia |].
    apply nearest_even_mono; nia.
  - eapply Z.le_trans; [ apply round_pos_upper; assumption |].
    eapply Z.le_trans; [| apply round_pos_lower; try assumption; lia ].
    apply Z.pow_le_mono_r; unfold prec; lia.
Qed.


(** A value that has at most 53 significant bits is not changed. *)
Lemma round_pos_exact (m e d : Z) :
  0 <= m < 2 ^ prec -> 0 <= e -> 0 < d ->
  round_pos (m * 2 ^ e * d) d = m * 2 ^ e.
Proof.
  intros Hm He Hd. rewrite round_pos_eq.
  assert (Q : m * 2 ^ e * d / d = m * 2 ^ e) by (apply Z.div_mul; lia).
  unfold ulp_exp. rewrite Q.
  set (E := Z.max 0 (Z.log2 (m * 2 ^ e) - (prec - 1))).
  assert (HE : 0 <= E <= e).
  { unfold E. destruct (Z.eq_dec m 0) as [->|NZ].
    - simpl. unfold prec. lia.
    - rewrite Z.log2_mul_pow2 by lia.
      assert (Z.log2 m < prec) by (apply Z.log2_lt_pow2; lia). lia. }
  replace (m * 2 ^ e * d) with (m * 2 ^ (e - E) * (d * 2 ^ E)).
  2:{ replace e with ((e - E) + E) at 2 by lia. rewrite Z.pow_add_r by lia. ring. }
  assert (0 < 2 ^ E) by (apply Z.pow_pos_nonneg; lia).
  rewrite nearest_even_exact by nia.
  replace e with ((e - E) + E) at 2 by lia. rewrite Z.pow_add_r by lia. ring.
Qed.

End float64_facts.

(** ** The number of rows to load *)

Section TotalRows.
Import float64 float64_facts.

Lemma one_pos : 0 < one.
Proof. rewrite one_eq. apply Z.pow_pos_nonneg; lia. Qed.

Lemma round_nonneg_eq (n d : Z) : 0 <= n -> round n d = round_pos n d.
Proof. intros H. unfold round. destruct (Z.ltb_spec n 0); [ lia | reflexivity ]. Qed.

(** An integer of at most 53 bits converts exactly. *)
Lemma of_int_exact (x : Z) : 0 <= x <= 2 ^ 53 -> of_int x = x * one.
Proof.
  intros H. pose proof one_pos as P. unfold of_int.
  rewrite round_nonneg_eq by nia.
  destruct (Z.eq_dec x (2 ^ 53)) as [->|N].
  - replace (2 ^ 53 * one) with (2 ^ 52 * 2 ^ 1075 * 1) by (rewrite one_eq; reflexivity).
    rewrite round_pos_exact; unfold prec; lia.
  - replace (x * one) with (x * 2 ^ 1074 * 1) by (rewrite <- one_eq; ring).
    rewrite round_pos_exact; unfold prec; lia.
Qed.


Lemma of_int_100 : of_int 100 = 100 * one.
Proof. apply of_int_exact. lia. Qed.

Lemma fraction_eq (r : Z) : 0 <= r <= 100 ->
  fraction r = round_pos (r * one * one) (100 * one).
Proof.
  intros H. pose proof one_pos as P. unfold fraction, div.
  rewrite of_int_100, of_int_exact by lia.
  destruct (Z.ltb_spec (100 * one) 0); [ lia |].
  apply round_nonneg_eq. nia.
Qed.

Lemma fraction_mono (r1 r2 : Z) : 0 <= r1 <= r2 -> r2 <= 100 ->
  fraction r1 <= fraction r2.
Proof.
  intros H1 H2. pose proof one_pos as P.
  rewrite !fraction_eq by lia.
  apply round_pos_mono; try nia.
  apply Z.mul_le_mono_nonneg_r; [ nia |].
  apply Z.mul_le_mono_nonneg_r; [ lia |].
  apply Z.mul_le_mono_nonneg_r; lia.
Qed.

Lemma fraction_0 : fraction 0 = 0.
Proof. vm_compute. reflexivity. Qed.

Lemma fraction_100 : fraction 100 = one.
Proof.
  pose proof one_pos as P.
  rewrite fraction_eq by lia.
  replace (100 * one * one) with (1 * 2 ^ 1074 * (100 * one)) by (rewrite <- one_eq; ring).
  rewrite round_pos_exact; unfold prec; try lia. rewrite <- one_eq. apply Z.mul_1_l.
Qed.

Lemma fraction_range (r : Z) : 0 <= r <= 100 -> 0 <= fraction r <= one.
Proof.
  intros H. split.
  - rewrite <- fraction_0. apply fraction_mono; lia.
  - rewrite <- fraction_100. apply fraction_mono; lia.
Qed.

Lemma mul_mono_r (x y1 y2 : t) : 0 <= x -> 0 <= y1 <= y2 -> mul x y1 <= mul x y2.
Proof.
  intros Hx Hy. pose proof one_pos as P. unfold mul.
  rewrite !round_nonneg_eq by nia.
  apply round_pos_mono; try nia.
  apply Z.mul_le_mono_nonneg_r; [ lia |]. nia.
Qed.

Lemma mul_0_r (x : t) : mul x 0 = 0.
Proof. unfold mul. rewrite Z.mul_0_r. vm_compute. reflexivity. Qed.

Lemma mul_one_exact (x : Z) : 0 <= x <= 2 ^ 53 -> mul (x * one) one = (x * one)%Z.
Proof.
  intros H. pose proof one_pos as P. unfold mul.
  rewrite round_nonneg_eq by nia.
  destruct (Z.eq_dec x (2 ^ 53)) as [->|N].
  - replace (2 ^ 53 * one * one) with (2 ^ 52 * 2 ^ 1075 * one) by (rewrite one_eq; reflexivity).
    rewrite round_pos_exact; unfold prec; try lia. rewrite one_eq. reflexivity.
  - replace (x * one * one) with (x * 2 ^ 1074 * one) by (rewrite <- one_eq; ring).
    rewrite round_pos_exact; unfold prec; try lia. rewrite <- one_eq. reflexivity.
Qed.

Lemma to_int_small (k : t) : 0 <= k < 2 ^ 63 * one -> to_int k = k / one.
Proof.
  intros H. pose proof one_pos as P. unfold to_int.
  rewrite Z.quot_div_nonneg by lia.
  assert (0 <= k / one) by (apply Z.div_pos; lia).
  assert (k / one < 2 ^ 63) by (apply Z.div_lt_upper_bound; lia).
  unfold GoInt.minInt, GoInt.maxInt.
  destruct (Z.leb_spec (- 2 ^ 63) (k / one)); [| lia ].
  destruct (Z.leb_spec (k / one) (2 ^ 63 - 1)); [| lia ].
  reflexivity.
Qed.

Lemma totalRows_eq (s r : Z) :
  totalRows s r = to_int (mul (of_int s) (fraction r)).
Proof. reflexivity. Qed.

Lemma scaled_range (s r : Z) : 0 <= s <= 2 ^ 53 -> 0 <= r <= 100 ->
  0 <= mul (of_int s) (fraction r) <= s * one.
Proof.
  intros Hs Hr. pose proof one_pos as P.
  pose proof (fraction_range r Hr) as F.
  rewrite of_int_exact by assumption. split.
  - rewrite <- (mul_0_r (s * one)). apply mul_mono_r; nia.
  - rewrite <- (mul_one_exact s Hs) at 2. apply mul_mono_r; nia.
Qed.



Lemma totalRows_range (s r : Z) : 0 <= s <= 2 ^ 53 -> 0 <= r <= 100 ->
  0 <= totalRows s r <= s.
Proof.
  intros Hs Hr. pose proof one_pos as P.
  pose proof (scaled_range s r Hs Hr) as R.
  rewrite totalRows_eq, to_int_small by nia. split.
  - apply Z.div_pos; lia.
  - apply Z.div_le_upper_bound; lia.
Qed.


End TotalRows.

(** ** The claims about one record and about the header *)

(** C1.  Round trip of a record: when [encodeRow] succeeds on a row whose key
    and value have the [keySize] and [valSize] fields the decoder expects,
    whose scalars fit their 64-bit types and whose handle is a 64-bit signed
    integer, [decodeRow] reads the row back from the encoded bytes, equal
    field for field, and leaves what follows them unread. *)
Theorem decodeRow_encodeRow (g : Vars) (row : comparableRow)
                            (out rest : list byte) :
  len (key row) = keySize g -> len (val row) = valSize g ->
  Forall valid (key row) -> Forall valid (val row) ->
  GoInt.is_int (handle row) ->
  encodeRow [] row = (out, None) -> len out <= GoInt.maxInt ->
  decodeRow g (out ++ rest) = (Ok row, rest).
Proof.
  intros Hk Hv Vk Vv Vh E Hlen.
  destruct (encodeRow_ok _ _ _ E) as (body & Eb & ->).
  cbn [app] in *. apply decodeRow_record; try assumption.
  rewrite len_app in Hlen. rewrite len_PutUint64 in Hlen. lia.
Qed.

Lemma decodeRow_encodeRow_witness :
  decodeRow (mkVars 10 2 1) (fst (encodeRow [] row_2_1) ++ [x2a])
  = (Ok row_2_1, [x2a]).
Proof.
  apply (decodeRow_encodeRow (mkVars 10 2 1) row_2_1).
  - reflexivity.
  - reflexivity.
  - repeat constructor; vm_compute; intuition discriminate.
  - repeat constructor; vm_compute; intuition discriminate.
  - vm_compute; intuition discriminate.
  - reflexivity.
  - vm_compute. discriminate.
Defined.

(** C10.  When [encodeRow] fails it returns the buffer it was given: neither
    the length header nor a part of the payload is appended. *)
Theorem encodeRow_error_keeps_buffer (b : list byte) (row : comparableRow)
                                     (out : list byte) (e : error) :
  encodeRow b row = (out, Some e) -> out = b.
Proof.
  unfold encodeRow.
  destruct (codec.EncodeKey [] (key row)) as [b1|e1];
    [| intros H; inversion H; reflexivity ].
  destruct (codec.EncodeKey b1 (val row)) as [b2|e2];
    [| intros H; inversion H; reflexivity ].
  destruct (codec.EncodeKey b2 [NewIntDatum (handle row)]) as [b3|e3];
    intros H; inversion H; reflexivity.
Qed.

Lemma encodeRow_error_keeps_buffer_witness :
  encodeRow [x01; x02] (mkRow [KindInt64 1] [KindInterface] 3)
  = ([x01; x02], Some (errTrace (errNew "unsupport encode type")))
  /\ [x01; x02] = [x01; x02].
Proof.
  split; [ reflexivity |].
  apply (encodeRow_error_keeps_buffer [x01; x02]
           (mkRow [KindInt64 1] [KindInterface] 3) [x01; x02]
           (errTrace (errNew "unsupport encode type"))).
  reflexivity.
Defined.

Lemma to_uint64_small (z : Z) : 0 <= z <= GoInt.maxInt ->
  GoInt.of_uint64 (binary.Uint64 (binary.PutUint64 (GoInt.to_uint64 z))) = z.
Proof.
  intros H. rewrite Uint64_PutUint64. unfold GoInt.to_uint64.
  rewrite Z.mod_mod by lia. apply of_to_uint64.
  unfold GoInt.is_int, GoInt.minInt, GoInt.maxInt in *. lia.
Qed.

Lemma encodeMeta_eq (b : list byte) (s k v : Z) :
  encodeMeta b s k v =
  b ++ binary.PutUint64 (GoInt.to_uint64 s) ++
       binary.PutUint64 (GoInt.to_uint64 k) ++
       binary.PutUint64 (GoInt.to_uint64 v).
Proof. unfold encodeMeta. rewrite <- !app_assoc. reflexivity. Qed.

Lemma len_encodeMeta (b : list byte) (s k v : Z) :
  len (encodeMeta b s k v) = len b + 24.
Proof. rewrite encodeMeta_eq, !len_app, !len_PutUint64. lia. Qed.

(** What [decodeMeta] does with a file of at least 24 bytes. *)
Lemma decodeMeta_header (g : Vars) (hdr rest : list byte) :
  len hdr = 24 ->
  decodeMeta g (hdr ++ rest) =
  let s := GoInt.of_uint64 (binary.Uint64 (firstn 8 hdr)) in
  let k := GoInt.of_uint64 (binary.Uint64 (firstn 8 (skipn 8 hdr))) in
  let v := GoInt.of_uint64 (binary.Uint64 (skipn 16 hdr)) in
  if s <=? 0
  then (Some (errNew "number of rows must be positive"),
        mkVars s (keySize g) (valSize g), rest)
  else if k <=? 0
  then (Some (errNew "key size must be positive"),
        mkVars s k (valSize g), rest)
  else if v <=? 0
  then (Some (errNew "value size must be positive"), mkVars s k v, rest)
  else (None, mkVars s k v, rest).
Proof.
  intros H. unfold decodeMeta. rewrite <- H at 1. rewrite Read_app.
  cbv beta iota. rewrite H. cbn [Z.eqb Pos.eqb negb].
  replace (os.fill hdr 24) with hdr by (rewrite <- H; symmetry; apply fill_full).
  cbv zeta. cbn [scale keySize valSize].
  repeat match goal with |- context [ if ?c then _ else _ ] => destruct c end;
    reflexivity.
Qed.

(** The header [encodeMeta] wrote is read back. *)
Lemma decodeMeta_written (g : Vars) (s k v : Z) (rest : list byte) :
  0 < s <= GoInt.maxInt -> 0 < k <= GoInt.maxInt -> 0 < v <= GoInt.maxInt ->
  decodeMeta g (encodeMeta [] s k v ++ rest) = (None, mkVars s k v, rest).
Proof.
  intros Hs Hk Hv.
  rewrite decodeMeta_header by apply len_encodeMeta.
  rewrite encodeMeta_eq. cbn [app].
  change (firstn 8 (binary.PutUint64 (GoInt.to_uint64 s) ++
                    binary.PutUint64 (GoInt.to_uint64 k) ++
                    binary.PutUint64 (GoInt.to_uint64 v)))
    with (binary.PutUint64 (GoInt.to_uint64 s)).
  change (firstn 8 (skipn 8 (binary.PutUint64 (GoInt.to_uint64 s) ++
                    binary.PutUint64 (GoInt.to_uint64 k) ++
                    binary.PutUint64 (GoInt.to_uint64 v))))
    with (binary.PutUint64 (GoInt.to_uint64 k)).
  change (skipn 16 (binary.PutUint64 (GoInt.to_uint64 s) ++
                    binary.PutUint64 (GoInt.to_uint64 k) ++
                    binary.PutUint64 (GoInt.to_uint64 v)))
    with (binary.PutUint64 (GoInt.to_uint64 v)).
  rewrite !to_uint64_small by lia. cbv zeta.
  destruct (Z.leb_spec s 0); [ lia |].
  destruct (Z.leb_spec k 0); [ lia |].
  destruct (Z.leb_spec v 0); [ lia |].
  reflexivity.
Qed.


(** C3.  Round trip of the header: for strictly positive [scale], [keySize]
    and [valSize] (values of [int]), reading the 24 bytes [encodeMeta] wrote
    succeeds and sets the three variables to the original triple. *)
Theorem decodeMeta_encodeMeta (g : Vars) (s k v : Z) (rest : list byte) :
  0 < s <= GoInt.maxInt -> 0 < k <= GoInt.maxInt -> 0 < v <= GoInt.maxInt ->
  len (encodeMeta [] s k v) = 24 /\
  decodeMeta g (encodeMeta [] s k v ++ rest) = (None, mkVars s k v, rest).
Proof.
  intros Hs Hk Hv. split; [ apply len_encodeMeta |].
  apply decodeMeta_written; assumption.
Qed.

Lemma decodeMeta_encodeMeta_witness :
  len (encodeMeta [] 10 2 1) = 24 /\
  decodeMeta (mkVars 0 0 0) (encodeMeta [] 10 2 1 ++ [x07])
  = (None, mkVars 10 2 1, [x07]).
Proof.
  apply (decodeMeta_encodeMeta (mkVars 0 0 0) 10 2 1 [x07]);
    unfold GoInt.maxInt; lia.
Defined.

(** C5.  A 24-byte header with a field that is not positive is rejected with
    the error that names the first such field, and [load] returns that error
    with the file still at the end of the header: no record has been read.  A
    header whose three fields are positive is accepted and the variables hold
    the fields. *)
Theorem decodeMeta_validates (g : Vars) (hdr rest : list byte) (ratio : Z) :
  len hdr = 24 ->
  let s := GoInt.of_uint64 (binary.Uint64 (firstn 8 hdr)) in
  let k := GoInt.of_uint64 (binary.Uint64 (firstn 8 (skipn 8 hdr))) in
  let v := GoInt.of_uint64 (binary.Uint64 (skipn 16 hdr)) in
  (s <= 0 ->
   exists g1,
     decodeMeta g (hdr ++ rest)
     = (Some (errNew "number of rows must be positive"), g1, rest) /\
     load g (Some (hdr ++ rest)) ratio
     = (Err (errTrace (errNew "number of rows must be positive")), g1, rest))
  /\ (0 < s -> k <= 0 ->
      exists g1,
        decodeMeta g (hdr ++ rest)
        = (Some (errNew "key size must be positive"), g1, rest) /\
        load g (Some (hdr ++ rest)) ratio
        = (Err (errTrace (errNew "key size must be positive")), g1, rest))
  /\ (0 < s -> 0 < k -> v <= 0 ->
      exists g1,
        decodeMeta g (hdr ++ rest)
        = (Some (errNew "value size must be positive"), g1, rest) /\
        load g (Some (hdr ++ rest)) ratio
        = (Err (errTrace (errNew "value size must be positive")), g1, rest))
  /\ (0 < s -> 0 < k -> 0 < v ->
      decodeMeta g (hdr ++ rest) = (None, mkVars s k v, rest)).
Proof.
  intros H s k v. unfold load.
  rewrite (decodeMeta_header g hdr rest H). fold s k v. cbv zeta.
  repeat split.
  - intros Hs. destruct (Z.leb_spec s 0); [| lia ]. eexists; split; reflexivity.
  - intros Hs Hk. destruct (Z.leb_spec s 0); [ lia |].
    destruct (Z.leb_spec k 0); [| lia ]. eexists; split; reflexivity.
  - intros Hs Hk Hv. destruct (Z.leb_spec s 0); [ lia |].
    destruct (Z.leb_spec k 0); [ lia |].
    destruct (Z.leb_spec v 0); [| lia ]. eexists; split; reflexivity.
  - intros Hs Hk Hv. destruct (Z.leb_spec s 0); [ lia |].
    destruct (Z.leb_spec k 0); [ lia |].
    destruct (Z.leb_spec v 0); [ lia |]. reflexivity.
Qed.

Lemma decodeMeta_validates_witness :
  exists g1,
    decodeMeta (mkVars 0 0 0) (header_zero_key ++ [x01; x02])
    = (Some (errNew "key size must be positive"), g1, [x01; x02]) /\
    load (mkVars 0 0 0) (Some (header_zero_key ++ [x01; x02])) 100
    = (Err (errTrace (errNew "key size must be positive")), g1, [x01; x02]).
Proof.
  refine (proj1 (proj2 (decodeMeta_validates (mkVars 0 0 0) header_zero_key
                          [x01; x02] 100 _)) _ _).
  - reflexivity.
  - vm_compute. reflexivity.
  - vm_compute. discriminate.
Defined.

(** ** The loop of the loader *)

Lemma loadRows_decodes (g : Vars) (fd fd' : os.File) (rows : list comparableRow) :
  decodes g fd rows fd' ->
  forall (m : nat) (data : list comparableRow),
    loadRows (List.length rows + m) g fd data = loadRows m g fd' (data ++ rows).
Proof.
  induction 1 as [fd | fd row fd1 rows fd2 Hd Hds IH]; intros m data.
  - rewrite app_nil_r. reflexivity.
  - cbn [List.length Nat.add loadRows]. rewrite Hd, IH, <- app_assoc. reflexivity.
Qed.

(** [load] once the header is accepted and [rows] have been decoded. *)
Lemma load_after_decodes (g g1 : Vars) (file : list byte) (ratio : Z)
    (fd1 fd2 : os.File) (rows : list comparableRow) (m : nat) :
  decodeMeta g file = (None, g1, fd1) ->
  decodes g1 fd1 rows fd2 ->
  Z.to_nat (totalRows (scale g1) ratio) = (List.length rows + m)%nat ->
  load g (Some file) ratio =
  (fst (loadRows m g1 fd2 rows), g1, snd (loadRows m g1 fd2 rows)).
Proof.
  intros Hm Hd Hn. unfold load. rewrite Hm, Hn.
  rewrite (loadRows_decodes g1 fd1 fd2 rows Hd). cbn [app].
  destruct (loadRows m g1 fd2 rows). reflexivity.
Qed.

(** C8.  When the header has been accepted and a call of [decodeRow] fails
    before [totalRows] rows have been decoded, [load] returns that error,
    traced, and no rows: those decoded before the failure are dropped. *)
Theorem load_decode_error (g g1 : Vars) (file : list byte) (ratio : Z)
    (fd1 fd2 fd3 : os.File) (rows : list comparableRow) (e : error) :
  decodeMeta g file = (None, g1, fd1) ->
  decodes g1 fd1 rows fd2 ->
  len rows < totalRows (scale g1) ratio ->
  decodeRow g1 fd2 = (Err e, fd3) ->
  load g (Some file) ratio = (Err (errTrace e), g1, fd3)
  /\ Cause (errTrace e) = Cause e
  /\ numRows (fst (fst (load g (Some file) ratio))) = 0.
Proof.
  intros Hm Hd Hlt He.
  assert (L : load g (Some file) ratio = (Err (errTrace e), g1, fd3)).
  { unfold len in Hlt.
    rewrite (load_after_decodes g g1 file ratio fd1 fd2 rows
               (S (Z.to_nat (totalRows (scale g1) ratio)
                   - List.length rows - 1)) Hm Hd) by lia.
    cbn [loadRows]. rewrite He. reflexivity. }
  rewrite L. repeat split; reflexivity.
Qed.

(** ** Files of records *)

Lemma records_cons (row : comparableRow) (rows : list comparableRow) :
  records (row :: rows) = recordOf row ++ records rows.
Proof. reflexivity. Qed.

Lemma records_app (a b : list comparableRow) :
  records (a ++ b) = records a ++ records b.
Proof. unfold records. rewrite map_app, concat_app. reflexivity. Qed.

(** What [writeRows] returns when every row is encoded. *)
Lemma writeRows_records (rows : list comparableRow) : forall b out,
  writeRows b rows = (out, None) ->
  out = b ++ records rows /\
  Forall (fun row => encodeRow [] row = (recordOf row, None)) rows.
Proof.
  induction rows as [|row rows IH]; intros b out E; simpl in E.
  - inversion E. rewrite app_nil_r. split; [ reflexivity | constructor ].
  - destruct (encodeRow b row) as [b1 [e|]] eqn:Er; [ discriminate |].
    destruct (encodeRow_recordOf _ _ _ Er) as (-> & E0).
    destruct (IH _ _ E) as (-> & F).
    rewrite records_cons, app_assoc. split; [ reflexivity |].
    constructor; assumption.
Qed.

Lemma writeRows_of_records (rows : list comparableRow) : forall b,
  Forall (fun row => encodeRow [] row = (recordOf row, None)) rows ->
  writeRows b rows = (b ++ records rows, None).
Proof.
  induction rows as [|row rows IH]; intros b F; simpl.
  - rewrite app_nil_r. reflexivity.
  - inversion F as [|? ? E0 F']; subst.
    rewrite records_cons, app_assoc, <- IH by assumption.
    unfold recordOf in *. rewrite encodeRow_eq in E0 |- *.
    rewrite (encodeRow_eq [] row).
    destruct (codec.encodeAll _) as [body|e]; [| discriminate ].
    reflexivity.
Qed.

Lemma len_recordOf_ge (row : comparableRow) :
  encodeRow [] row = (recordOf row, None) ->
  8 + len (key row) + len (val row) + 1 <= len (recordOf row).
Proof.
  intros E. destruct (encodeRow_ok _ _ _ E) as (body & Eb & R).
  cbn [app] in R. rewrite R, len_app, len_PutUint64.
  pose proof (encodeAll_len_ge _ _ Eb) as G.
  rewrite !len_app in G. change (len [NewIntDatum (handle row)]) with 1 in G.
  lia.
Qed.

Lemma len_records_ge (rows : list comparableRow) :
  Forall (fun row => encodeRow [] row = (recordOf row, None)) rows ->
  9 * len rows <= len (records rows).
Proof.
  induction 1 as [|row rows E F IH].
  - unfold len; simpl; lia.
  - rewrite records_cons, len_app.
    pose proof (len_recordOf_ge row E).
    pose proof (len_nonneg (key row)). pose proof (len_nonneg (val row)).
    unfold len in *. simpl List.length. lia.
Qed.

(** The records of well-shaped rows are decoded one after the other. *)
Lemma decodes_records (g : Vars) (rows : list comparableRow) (rest : list byte) :
  Forall (rowShape (keySize g) (valSize g)) rows ->
  Forall (fun row => encodeRow [] row = (recordOf row, None)) rows ->
  len (records rows) <= GoInt.maxInt ->
  decodes g (records rows ++ rest) rows rest.
Proof.
  induction rows as [|row rows IH]; intros S F L.
  - apply decodes_nil.
  - inversion S as [|? ? (Hk & Hv & Vk & Vv & Vh) S']; subst.
    inversion F as [|? ? E0 F']; subst.
    rewrite records_cons, len_app in L.
    pose proof (len_nonneg (recordOf row)). pose proof (len_nonneg (records rows)).
    apply decodes_cons with (fd1 := records rows ++ rest).
    + rewrite records_cons, <- app_assoc.
      destruct (encodeRow_ok _ _ _ E0) as (body & Eb & R). cbn [app] in R.
      rewrite R, <- app_assoc, app_assoc.
      apply decodeRow_record; try assumption.
      rewrite R, len_app, len_PutUint64 in L. lia.
    + apply IH; try assumption. lia.
Qed.


(** The shape of a well-formed file. *)
Lemma wellFormed_file (file : list byte) (s k v : Z) (rows : list comparableRow) :
  wellFormed file s k v rows ->
  file = encodeMeta [] s k v ++ records rows
  /\ Forall (fun row => encodeRow [] row = (recordOf row, None)) rows
  /\ len (records rows) <= GoInt.maxInt
  /\ s <= GoInt.maxInt /\ k <= GoInt.maxInt /\ v <= GoInt.maxInt.
Proof.
  intros W. destruct W as [Hs Hk Hv Hc Hr Hb Hz].
  destruct (writeRows_records _ _ _ Hb) as (-> & F).
  rewrite len_app, len_encodeMeta in Hz. change (len []) with 0 in Hz.
  pose proof (len_records_ge rows F) as G.
  repeat split; try assumption; try lia.
  - destruct rows as [|row rows]; [ unfold len in Hc; simpl in Hc; lia |].
    inversion Hr as [|? ? (Hk' & _) _]; subst.
    inversion F as [|? ? E0 _]; subst.
    pose proof (len_recordOf_ge row E0).
    rewrite records_cons, len_app in Hz.
    pose proof (len_nonneg (records rows)). pose proof (len_nonneg (val row)). lia.
  - destruct rows as [|row rows]; [ unfold len in Hc; simpl in Hc; lia |].
    inversion Hr as [|? ? (_ & Hv' & _) _]; subst.
    inversion F as [|? ? E0 _]; subst.
    pose proof (len_recordOf_ge row E0).
    rewrite records_cons, len_app in Hz.
    pose proof (len_nonneg (records rows)). pose proof (len_nonneg (key row)). lia.
Qed.

(** ** Loading a well-formed file *)

Lemma Forall_firstn' {A} (P : A -> Prop) (n : nat) (l : list A) :
  Forall P l -> Forall P (firstn n l).
Proof.
  revert l. induction n as [|n IH]; intros l F; [ constructor |].
  destruct F; simpl; constructor; auto.
Qed.


(** [load] returns the first [totalRows] rows of a well-formed file, in the
    order they were written, and leaves the other records unread. *)
Lemma load_prefix (g : Vars) (file : list byte) (s k v : Z)
    (rows : list comparableRow) (ratio : Z) :
  wellFormed file s k v rows ->
  0 <= totalRows s ratio <= s ->
  load g (Some file) ratio =
  (Ok (firstn (Z.to_nat (totalRows s ratio)) rows), mkVars s k v,
   records (skipn (Z.to_nat (totalRows s ratio)) rows)).
Proof.
  intros W Hn.
  destruct (wellFormed_file _ _ _ _ _ W) as (-> & F & L & Hs & Hk & Hv).
  destruct W as [Ps Pk Pv Hc Hr _ _].
  set (n := Z.to_nat (totalRows s ratio)).
  assert (Nle : (n <= List.length rows)%nat) by (unfold n, len in *; lia).
  rewrite <- (firstn_skipn n rows) at 1. rewrite records_app.
  rewrite (load_after_decodes g (mkVars s k v) _ ratio
             (records (firstn n rows) ++ records (skipn n rows))
             (records (skipn n rows)) (firstn n rows) 0).
  - reflexivity.
  - apply decodeMeta_written; lia.
  - apply decodes_records.
    + apply Forall_firstn'. exact Hr.
    + apply Forall_firstn'. exact F.
    + rewrite <- (firstn_skipn n rows), records_app, len_app in L.
      pose proof (len_nonneg (records (skipn n rows))). lia.
  - cbn [scale]. fold n. rewrite length_firstn. lia.
Qed.


(** ** Generated rows *)

Lemma intDatum_valid (d : Datum) : intDatum d -> valid d.
Proof.
  intros (x & -> & H). unfold valid, GoInt.is_int, GoInt.minInt, GoInt.maxInt. lia.
Qed.

Lemma Int63_range (r : rand.Rand) : 0 <= fst (rand.Int63 r) < 2 ^ 63.
Proof. unfold rand.Int63. cbn [fst]. apply Z.mod_pos_bound. lia. Qed.

Lemma fillDatums_spec (n : nat) : forall r,
  List.length (fst (fillDatums n r)) = n /\ Forall intDatum (fst (fillDatums n r)).
Proof.
  induction n as [|n IH]; intros r; [ split; [ reflexivity | constructor ] |].
  cbn [fillDatums]. unfold rand.Int.
  pose proof (Int63_range r) as R.
  destruct (rand.Int63 r) as [x r1]. cbn [fst] in R.
  specialize (IH r1). destruct (fillDatums n r1) as [ds r2]. cbn [fst] in *.
  destruct IH as (L & F). split; [ simpl; congruence |].
  constructor; [ exists x; split; [ reflexivity | assumption ] | assumption ].
Qed.

(** [nextRow] on field counts that are not negative. *)
Lemma nextRow_spec (r : rand.Rand) (k v : Z) :
  0 <= k -> 0 <= v ->
  exists row r',
    nextRow r k v = (Ok row, r') /\
    len (key row) = k /\ len (val row) = v /\
    Forall intDatum (key row) /\ Forall intDatum (val row) /\
    0 <= handle row < 2 ^ 63.
Proof.
  intros Hk Hv. unfold nextRow.
  destruct (Z.ltb_spec k 0); [ lia |].
  pose proof (fillDatums_spec (Z.to_nat k) r) as (L1 & F1).
  destruct (fillDatums (Z.to_nat k) r) as [ks r1]. cbn [fst] in *.
  destruct (Z.ltb_spec v 0); [ lia |].
  pose proof (fillDatums_spec (Z.to_nat v) r1) as (L2 & F2).
  destruct (fillDatums (Z.to_nat v) r1) as [vs r2]. cbn [fst] in *.
  pose proof (Int63_range r2) as R.
  destruct (rand.Int63 r2) as [h r3]. cbn [fst] in R.
  exists (mkRow ks vs h), r3. cbn [key val handle]. unfold len.
  repeat split; try assumption; lia.
Qed.

Lemma encodeAll_ints (ds : list Datum) :
  Forall intDatum ds ->
  exists bs, codec.encodeAll ds = inl bs /\ len bs = 9 * len ds.
Proof.
  induction 1 as [|d ds (x & -> & Hx) F (bs & E & L)].
  - exists []. split; reflexivity.
  - cbn [codec.encodeAll codec.encodeOne]. rewrite E.
    eexists; split; [ reflexivity |].
    rewrite len_app, L. unfold len. cbn [List.length binary.PutUint64]. lia.
Qed.

(** The record of a row of integers. *)
Lemma record_of_ints (row : comparableRow) :
  Forall intDatum (key row) -> Forall intDatum (val row) ->
  0 <= handle row < 2 ^ 63 ->
  encodeRow [] row = (recordOf row, None) /\
  len (recordOf row) = 8 + 9 * (len (key row) + len (val row) + 1) /\
  exists body,
    codec.encodeAll (key row ++ val row ++ [NewIntDatum (handle row)]) = inl body
    /\ len body = 9 * (len (key row) + len (val row) + 1).
Proof.
  intros Fk Fv Hh.
  assert (F : Forall intDatum (key row ++ val row ++ [NewIntDatum (handle row)])).
  { apply Forall_app; split; [ assumption |]. apply Forall_app; split; [ assumption |].
    constructor; [| constructor ]. exists (handle row). split; [ reflexivity | assumption ]. }
  destruct (encodeAll_ints _ F) as (body & E & L).
  rewrite !len_app in L. change (len [NewIntDatum (handle row)]) with 1 in L.
  unfold recordOf. rewrite encodeRow_eq, E. cbn [fst app].
  repeat split.
  - rewrite len_app, len_PutUint64, L. lia.
  - exists body. split; [ reflexivity | lia ].
Qed.

(** The rows [nextRows] returns. *)
Lemma nextRows_spec (n : nat) (k v : Z) : 0 <= k -> 0 <= v -> forall r,
  List.length (nextRows n r k v) = n /\
  Forall (fun row => len (key row) = k /\ len (val row) = v /\
                     Forall intDatum (key row) /\ Forall intDatum (val row) /\
                     0 <= handle row < 2 ^ 63) (nextRows n r k v).
Proof.
  intros Hk Hv. induction n as [|n IH]; intros r;
    [ split; [ reflexivity | constructor ] |].
  cbn [nextRows].
  destruct (nextRow_spec r k v Hk Hv) as (row & r' & E & P).
  rewrite E. destruct (IH r') as (L & F).
  split; [ simpl; congruence | constructor; assumption ].
Qed.

(** The loop of [export] writes the records of the generated rows. *)
Lemma exportRows_spec (n : nat) (g : Vars) :
  0 <= keySize g -> 0 <= valSize g -> forall r out,
  exportRows n g r out
  = Ok (out ++ records (nextRows n r (keySize g) (valSize g))).
Proof.
  intros Hk Hv. induction n as [|n IH]; intros r out.
  - cbn. rewrite app_nil_r. reflexivity.
  - cbn [exportRows nextRows].
    destruct (nextRow_spec r (keySize g) (valSize g) Hk Hv)
      as (row & r' & E & _ & _ & Fk & Fv & Hh).
    rewrite E.
    destruct (record_of_ints row Fk Fv Hh) as (Er & _).
    rewrite encodeRow_eq. unfold recordOf in Er. rewrite encodeRow_eq in Er.
    rewrite records_cons. unfold recordOf at 1. rewrite encodeRow_eq.
    destruct (codec.encodeAll _) as [body|e]; [| discriminate ].
    rewrite IH. cbn [fst app]. rewrite <- !app_assoc. reflexivity.
Qed.

Lemma len_records_ints (k v : Z) (rows : list comparableRow) :
  Forall (fun row => len (key row) = k /\ len (val row) = v /\
                     Forall intDatum (key row) /\ Forall intDatum (val row) /\
                     0 <= handle row < 2 ^ 63) rows ->
  len (records rows) = len rows * (8 + 9 * (k + v + 1)).
Proof.
  induction 1 as [|row rows (Hk & Hv & Fk & Fv & Hh) F IH].
  - reflexivity.
  - rewrite records_cons, len_app, IH.
    destruct (record_of_ints row Fk Fv Hh) as (_ & L & _).
    rewrite L, Hk, Hv. unfold len. cbn [List.length]. lia.
Qed.

(** [export] writes a well-formed file of the rows it generates. *)
Lemma export_wellFormed (s k v : Z) (r : rand.Rand) :
  0 < s -> 0 < k -> 0 < v ->
  24 + s * (8 + 9 * (k + v + 1)) <= GoInt.maxInt ->
  let rows := nextRows (Z.to_nat s) r k v in
  let file := encodeMeta [] s k v ++ records rows in
  export (mkVars s k v) r = Ok file /\
  wellFormed file s k v rows /\
  len file = 24 + s * (8 + 9 * (k + v + 1)).
Proof.
  intros Hs Hk Hv Hsz rows file.
  destruct (nextRows_spec (Z.to_nat s) k v ltac:(lia) ltac:(lia) r) as (L & F).
  fold rows in L, F.
  assert (Ls : len rows = s) by (unfold len; lia).
  assert (Lf : len file = 24 + s * (8 + 9 * (k + v + 1))).
  { unfold file. rewrite len_app, len_encodeMeta, (len_records_ints k v) by assumption.
    rewrite Ls. reflexivity. }
  assert (Enc : Forall (fun row => encodeRow [] row = (recordOf row, None)) rows).
  { eapply Forall_impl; [| exact F ]. intros row (_ & _ & Fk & Fv & Hh).
    apply (record_of_ints row Fk Fv Hh). }
  repeat split; try assumption.
  - unfold export. cbn [scale keySize valSize].
    apply (exportRows_spec (Z.to_nat s) (mkVars s k v)); cbn; lia.
  - eapply Forall_impl; [| exact F ]. intros row (Ek & Ev & Fk & Fv & Hh).
    repeat split; try assumption.
    + eapply Forall_impl; [| exact Fk ]. apply intDatum_valid.
    + eapply Forall_impl; [| exact Fv ]. apply intDatum_valid.
    + unfold GoInt.minInt. lia.
    + unfold GoInt.maxInt. lia.
  - apply writeRows_of_records. exact Enc.
  - lia.
Qed.

(** ** The claims about the loader *)


Lemma manyFile_wellFormed (s : Z) :
  0 < s -> 24 + s * 35 <= GoInt.maxInt ->
  wellFormed (manyFile s) s 1 1 (manyRows s).
Proof.
  intros Hs Hz.
  assert (I : Forall (fun row => len (key row) = 1 /\ len (val row) = 1 /\
                       Forall intDatum (key row) /\ Forall intDatum (val row) /\
                       0 <= handle row < 2 ^ 63) (manyRows s)).
  { apply Forall_forall. intros row Hin. apply repeat_spec in Hin. subst row.
    repeat split; try reflexivity; try (cbn; lia);
      repeat constructor; eexists; (split; [ reflexivity | lia ]). }
  assert (L : len (manyRows s) = s).
  { unfold len, manyRows. rewrite repeat_length. apply Z2Nat.id. lia. }
  constructor; try assumption; try lia.
  - eapply Forall_impl; [| exact I ]. intros row (Ek & Ev & Fk & Fv & Hh).
    repeat split; try assumption.
    + eapply Forall_impl; [| exact Fk ]. apply intDatum_valid.
    + eapply Forall_impl; [| exact Fv ]. apply intDatum_valid.
    + unfold GoInt.minInt. lia.
    + unfold GoInt.maxInt. lia.
  - apply writeRows_of_records.
    eapply Forall_impl; [| exact I ]. intros row (_ & _ & Fk & Fv & Hh).
    apply (record_of_ints row Fk Fv Hh).
  - unfold manyFile. rewrite len_app, len_encodeMeta, (len_records_ints 1 1), L by assumption.
    change (len []) with 0. lia.
Qed.










(** C9.  Generating with [scale = 10], [keySize = 2] and [valSize = 1] writes
    a file of 24 + 10 * (8 + 36) bytes, 36 being the length of the payload of
    the 4 scalars of every generated row, and loading that file with ratio 50
    returns the first 5 generated rows, in the order they were generated. *)
Theorem export_then_load_half (r : rand.Rand) (g : Vars) :
  exists file,
    export (mkVars 10 2 1) r = Ok file /\
    len file = 24 + 10 * (8 + 36) /\
    Forall (fun row =>
              exists body,
                codec.encodeAll
                  (key row ++ val row ++ [NewIntDatum (handle row)]) = inl body
                /\ len body = 36)
           (nextRows 10 r 2 1) /\
    fst (fst (load g (Some file) 50)) = Ok (firstn 5 (nextRows 10 r 2 1)).
Proof.
  destruct (export_wellFormed 10 2 1 r ltac:(lia) ltac:(lia) ltac:(lia)
              ltac:(unfold GoInt.maxInt; lia)) as (E & W & L).
  change (Z.to_nat 10) with 10%nat in *.
  eexists. split; [ exact E |]. split; [ exact L |]. split.
  - destruct (nextRows_spec 10 2 1 ltac:(lia) ltac:(lia) r) as (_ & F).
    eapply Forall_impl; [| exact F ].
    intros row (Ek & Ev & Fk & Fv & Hh).
    destruct (record_of_ints row Fk Fv Hh) as (_ & _ & body & Eb & Lb).
    exists body. split; [ exact Eb |]. rewrite Lb, Ek, Ev. reflexivity.
  - assert (T : totalRows 10 50 = 5) by (vm_compute; reflexivity).
    rewrite (load_prefix g _ 10 2 1 _ 50 W) by (rewrite T; lia).
    rewrite T. reflexivity.
Qed.

(** C2 fails on the code: of 100 rows, ratio 29 selects 28, not
    [100 * 29 / 100 = 29]. *)
Theorem totalRows_100_29 : totalRows 100 29 = 28 /\ 100 * 29 / 100 = 29.
Proof. split; vm_compute; reflexivity. Qed.

(** C4 fails on the code: a length prefix of 2^63 or more becomes a negative
    [int], and [make] panics where the claim has a truncated-record error. *)
Theorem decodeRow_length_overflow :
  binary.Uint64 [x80; x00; x00; x00; x00; x00; x00; x00] = 2 ^ 63 /\
  decodeRow (mkVars 10 2 1) [x80; x00; x00; x00; x00; x00; x00; x00; x01]
  = (Panic "makeslice: len out of range", [x01]).
Proof. split; vm_compute; reflexivity. Qed.

Lemma load_decode_error_witness :
  load (mkVars 0 0 0) (Some (firstn 70 (manyFile 3))) 100
  = (Err (errTrace (errNew "incorrect row")), mkVars 3 1 1, [])
  /\ Cause (errTrace (errNew "incorrect row")) = Cause (errNew "incorrect row")
  /\ numRows (fst (fst (load (mkVars 0 0 0)
                             (Some (firstn 70 (manyFile 3))) 100))) = 0.
Proof.
  apply (load_decode_error (mkVars 0 0 0) (mkVars 3 1 1)
           (firstn 70 (manyFile 3)) 100
           (skipn 24 (firstn 70 (manyFile 3)))
           (skipn 59 (firstn 70 (manyFile 3))) []
           [row_1_1] (errNew "incorrect row")).
  - vm_compute. reflexivity.
  - apply decodes_cons with (fd1 := skipn 59 (firstn 70 (manyFile 3)));
      [ vm_compute; reflexivity | apply decodes_nil ].
  - vm_compute. reflexivity.
  - vm_compute. reflexivity.
Defined.

(** ** The model of float64 against the kernel's floats *)

(** On these inputs the rounding above gives what the hardware gives. *)
Lemma float64_agrees_with_hardware :
  forallb (fun p => agrees (fst p) (snd p))
    [ (100, 29); (100, 7); (100, 57); (10, 50); (3, 40); (3, 70); (7, 0);
      (1, 1); (12345, 33); (99999, 99); (2 ^ 53 + 1, 100);
      (2 ^ 53 + 3, 100); (2 ^ 53 + 3, 50); (2 ^ 62 + 1, 99) ] = true.
Proof. vm_compute. reflexivity. Qed.

(** * More of the program *)

(** ** Records that are cut short *)

Lemma Read_short (fd : list byte) (size : Z) :
  len fd < size -> exists err, os.Read fd size = (fd, err, []).
Proof.
  intros H. unfold os.Read. pose proof (len_nonneg fd).
  destruct (Z.leb_spec size 0); [ lia |].
  destruct fd as [|x fd]; [ eexists; reflexivity |].
  destruct (Z.leb_spec size (len (x :: fd))); [ lia |].
  eexists; reflexivity.
Qed.

Lemma Read_full (fd : list byte) (size : Z) (data : list byte) (err : option error)
    (fd' : list byte) :
  os.Read fd size = (data, err, fd') -> len data = size -> 0 <= size ->
  fd = data ++ fd' /\ err = None.
Proof.
  unfold os.Read. intros E L Hs.
  destruct (Z.leb_spec size 0).
  - inversion E; subst. split; reflexivity.
  - destruct fd as [|x fd]; [ inversion E; subst; unfold len in *; simpl in *; lia |].
    destruct (Z.leb_spec size (len (x :: fd))).
    + inversion E; subst. rewrite firstn_skipn. split; reflexivity.
    + inversion E; subst. lia.
Qed.

Lemma decodeRow_few_bytes (g : Vars) (fd : os.File) :
  capOk g -> len fd < 8 ->
  decodeRow g fd = (Err (errNew "incorrect header"), []).
Proof.
  unfold capOk. intros C H. unfold decodeRow.
  destruct (Z.ltb_spec (GoInt.add (GoInt.add (keySize g) (valSize g)) 1) 0);
    [ lia |].
  destruct (Read_short fd 8 H) as (err & ->).
  destruct (Z.eqb_spec (len fd) 8); [ lia |]. reflexivity.
Qed.

Lemma decodeRow_few_payload (g : Vars) (head payload : list byte) :
  capOk g -> len head = 8 ->
  binary.Uint64 head < 2 ^ 63 ->
  len payload < binary.Uint64 head ->
  decodeRow g (head ++ payload) = (Err (errNew "incorrect row"), []).
Proof.
  unfold capOk. intros C H8 HL Hp. unfold decodeRow.
  destruct (Z.ltb_spec (GoInt.add (GoInt.add (keySize g) (valSize g)) 1) 0);
    [ lia |].
  rewrite <- H8 at 1. rewrite Read_app. cbv beta iota.
  rewrite H8. cbn [Z.eqb Pos.eqb negb].
  replace (os.fill head 8) with head by (rewrite <- H8; symmetry; apply fill_full).
  pose proof (Uint64_range head) as R. pose proof (len_nonneg payload).
  rewrite of_uint64_small by lia.
  destruct (Z.ltb_spec (binary.Uint64 head) 0); [ lia |].
  destruct (Read_short payload (binary.Uint64 head) Hp) as (err & ->).
  destruct (Z.eqb_spec (len payload) (binary.Uint64 head)); [ lia |].
  reflexivity.
Qed.

(** X1.  With fewer than 8 bytes left in the file, [decodeRow] returns the
    error "incorrect header" and no row, whatever the bytes are. *)
Theorem decodeRow_short_header (g : Vars) (fd : os.File) :
  capOk g -> len fd < 8 ->
  decodeRow g fd = (Err (errNew "incorrect header"), []).
Proof. apply decodeRow_few_bytes. Qed.

Lemma decodeRow_short_header_witness :
  decodeRow (mkVars 10 2 1) [x00; x00; x00; x00; x00; x00; x24]
  = (Err (errNew "incorrect header"), []).
Proof.
  apply (decodeRow_short_header (mkVars 10 2 1)
           [x00; x00; x00; x00; x00; x00; x24]).
  - vm_compute. discriminate.
  - vm_compute. reflexivity.
Defined.



(** X3.  A row is returned only from a whole record: when [decodeRow]
    succeeds, the file began with an 8-byte prefix and exactly as many payload
    bytes as the prefix says, the payload decodes to scalars of which the
    first [keySize] are the key and the next [valSize] the value, and the file
    is left just after the payload. *)
Theorem decodeRow_ok_whole_record (g : Vars) (fd fd' : os.File)
    (row : comparableRow) :
  decodeRow g fd = (Ok row, fd') ->
  exists head payload dcod,
    fd = head ++ payload ++ fd' /\
    len head = 8 /\
    len payload = binary.Uint64 head /\
    codec.Decode payload (GoInt.add (GoInt.add (keySize g) (valSize g)) 1)
    = inl dcod /\
    slice dcod 0 (keySize g) = Ok (key row) /\
    slice dcod (keySize g) (GoInt.add (keySize g) (valSize g)) = Ok (val row).
Proof.
  unfold decodeRow.
  destruct (Z.ltb_spec (GoInt.add (GoInt.add (keySize g) (valSize g)) 1) 0);
    [ discriminate |].
  destruct (os.Read fd 8) as [[data err] fd1] eqn:R1.
  destruct (Z.eqb_spec (len data) 8) as [L8|]; [| discriminate ].
  cbn [negb].
  destruct (Read_full _ _ _ _ _ R1 L8 ltac:(lia)) as (-> & ->).
  replace (os.fill data 8) with data by (rewrite <- L8; symmetry; apply fill_full).
  destruct (Z.ltb_spec (GoInt.of_uint64 (binary.Uint64 data)) 0);
    [ discriminate |].
  destruct (os.Read fd1 (GoInt.of_uint64 (binary.Uint64 data)))
    as [[data2 err2] fd2] eqn:R2.
  destruct (Z.eqb_spec (len data2) (GoInt.of_uint64 (binary.Uint64 data)))
    as [L2|]; [| discriminate ].
  cbn [negb].
  destruct (Read_full _ _ _ _ _ R2 L2 ltac:(lia)) as (-> & ->).
  rewrite <- L2, fill_full.
  destruct (codec.Decode data2 _) as [dcod|e] eqn:D; [| discriminate ].
  destruct (slice dcod 0 (keySize g)) as [k| |] eqn:S1; try discriminate.
  destruct (slice dcod (keySize g) (GoInt.add (keySize g) (valSize g)))
    as [v| |] eqn:S2; try discriminate.
  destruct (slice dcod (GoInt.add (keySize g) (valSize g)) (len dcod))
    as [[|h t]| |] eqn:S3; try discriminate.
  intros E. inversion E; subst. cbn [key val].
  exists data, data2, dcod.
  pose proof (Uint64_range data) as R.
  assert (U : GoInt.of_uint64 (binary.Uint64 data) = binary.Uint64 data).
  { unfold GoInt.of_uint64 in *. rewrite Z.mod_small in * by lia.
    destruct (Z.ltb_spec (binary.Uint64 data) (2 ^ 63)); lia. }
  repeat split; try assumption; try reflexivity. lia.
Qed.

Lemma decodeRow_ok_whole_record_witness :
  exists head payload dcod,
    recordOf row_2_1 ++ [x07] = head ++ payload ++ [x07] /\
    len head = 8 /\
    len payload = binary.Uint64 head /\
    codec.Decode payload (GoInt.add (GoInt.add 2 1) 1) = inl dcod /\
    slice dcod 0 2 = Ok (key row_2_1) /\
    slice dcod 2 (GoInt.add 2 1) = Ok (val row_2_1).
Proof.
  apply (decodeRow_ok_whole_record (mkVars 10 2 1) (recordOf row_2_1 ++ [x07])
           [x07] row_2_1).
  vm_compute. reflexivity.
Defined.

(** ** The header *)

Lemma decodeMeta_few_bytes (g : Vars) (fd : os.File) :
  len fd < 24 ->
  decodeMeta g fd = (Some (errNew "incorrect meta data"), g, []).
Proof.
  intros H. unfold decodeMeta.
  destruct (Read_short fd 24 H) as (err & ->).
  destruct (Z.eqb_spec (len fd) 24); [ lia |]. reflexivity.
Qed.

(** X4.  A file of fewer than 24 bytes has no header: [decodeMeta] returns
    the error "incorrect meta data" and leaves the variables as they were, and
    [load] returns that error, traced, and no rows. *)
Theorem decodeMeta_short_file (g : Vars) (fd : os.File) (ratio : Z) :
  len fd < 24 ->
  decodeMeta g fd = (Some (errNew "incorrect meta data"), g, []) /\
  load g (Some fd) ratio
  = (Err (errTrace (errNew "incorrect meta data")), g, []).
Proof.
  intros H. pose proof (decodeMeta_few_bytes g fd H) as E.
  split; [ exact E |]. unfold load. rewrite E. reflexivity.
Qed.

Lemma decodeMeta_short_file_witness :
  decodeMeta (mkVars 100 8 8) (firstn 23 (manyFile 3))
  = (Some (errNew "incorrect meta data"), mkVars 100 8 8, []) /\
  load (mkVars 100 8 8) (Some (firstn 23 (manyFile 3))) 50
  = (Err (errTrace (errNew "incorrect meta data")), mkVars 100 8 8, []).
Proof.
  apply (decodeMeta_short_file (mkVars 100 8 8) (firstn 23 (manyFile 3)) 50).
  vm_compute. reflexivity.
Defined.

(** X5.  What [decodeMeta] leaves in the variables, also when it fails: each
    variable is assigned before its check, so [scale] always holds the first
    field of the header, [keySize] the second one unless the first check
    failed, and [valSize] the third one unless one of the first two checks
    failed; the file is left after the 24 bytes. *)
Theorem decodeMeta_assigns_before_checking (g : Vars) (hdr rest : list byte) :
  len hdr = 24 ->
  let s := GoInt.of_uint64 (binary.Uint64 (firstn 8 hdr)) in
  let k := GoInt.of_uint64 (binary.Uint64 (firstn 8 (skipn 8 hdr))) in
  let v := GoInt.of_uint64 (binary.Uint64 (skipn 16 hdr)) in
  let g' := snd (fst (decodeMeta g (hdr ++ rest))) in
  snd (decodeMeta g (hdr ++ rest)) = rest /\
  scale g' = s /\
  keySize g' = (if s <=? 0 then keySize g else k) /\
  valSize g' = (if (s <=? 0) || (k <=? 0) then valSize g else v).
Proof.
  intros H s k v. cbv zeta. rewrite (decodeMeta_header g hdr rest H).
  cbv zeta. fold s k v.
  destruct (s <=? 0); [ repeat split |].
  destruct (k <=? 0); [ repeat split |].
  destruct (v <=? 0); repeat split.
Qed.

Lemma decodeMeta_assigns_before_checking_witness :
  let g' := snd (fst (decodeMeta (mkVars 100 8 8) (header_zero_key ++ [x01]))) in
  snd (decodeMeta (mkVars 100 8 8) (header_zero_key ++ [x01])) = [x01] /\
  scale g' = 10 /\ keySize g' = 0 /\ valSize g' = 8.
Proof.
  apply (decodeMeta_assigns_before_checking (mkVars 100 8 8) header_zero_key [x01]).
  vm_compute. reflexivity.
Defined.

Lemma three_fields {A} (a b c : list A) :
  List.length a = 8%nat -> List.length b = 8%nat ->
  firstn 8 (a ++ b ++ c) = a /\
  firstn 8 (skipn 8 (a ++ b ++ c)) = b /\
  skipn 16 (a ++ b ++ c) = c.
Proof.
  intros Ha Hb.
  assert (Fa : firstn 8 a = a) by (rewrite <- Ha; apply firstn_all).
  assert (Fb : firstn 8 b = b) by (rewrite <- Hb; apply firstn_all).
  assert (Sa : skipn 8 a = []) by (rewrite <- Ha; apply skipn_all).
  assert (Sab : skipn 16 (a ++ b) = [])
    by (apply skipn_all2; rewrite length_app; lia).
  repeat split.
  - rewrite firstn_app, Ha, Fa. cbn [Nat.sub firstn]. apply app_nil_r.
  - rewrite skipn_app, Ha, Sa. cbn [Nat.sub skipn app].
    rewrite firstn_app, Hb, Fb. cbn [Nat.sub firstn]. apply app_nil_r.
  - rewrite app_assoc, skipn_app, Sab, length_app, Ha, Hb. reflexivity.
Qed.

Lemma header_fields (s k v : Z) :
  GoInt.is_int s -> GoInt.is_int k -> GoInt.is_int v ->
  let h := encodeMeta [] s k v in
  len h = 24 /\
  GoInt.of_uint64 (binary.Uint64 (firstn 8 h)) = s /\
  GoInt.of_uint64 (binary.Uint64 (firstn 8 (skipn 8 h))) = k /\
  GoInt.of_uint64 (binary.Uint64 (skipn 16 h)) = v.
Proof.
  intros Hs Hk Hv h. unfold h. rewrite encodeMeta_eq. cbn [app].
  assert (L : forall x, List.length (binary.PutUint64 x) = 8%nat).
  { intros x. pose proof (len_PutUint64 x) as P. unfold len in P. lia. }
  assert (F : forall x, GoInt.is_int x ->
            GoInt.of_uint64 (binary.Uint64 (binary.PutUint64 (GoInt.to_uint64 x))) = x).
  { intros x Hx. rewrite Uint64_PutUint64.
    unfold GoInt.to_uint64. rewrite Z.mod_mod by lia.
    apply (of_to_uint64 x Hx). }
  destruct (three_fields (binary.PutUint64 (GoInt.to_uint64 s))
              (binary.PutUint64 (GoInt.to_uint64 k))
              (binary.PutUint64 (GoInt.to_uint64 v)) (L _) (L _))
    as (E1 & E2 & E3).
  rewrite E1, E2, E3, !len_app, !len_PutUint64.
  repeat split; auto.
Qed.

(** X6.  The header [encodeMeta] writes holds any three [int]s, also zero and
    negative ones: its three fields read back as the integers written; and
    [decodeMeta] accepts it exactly when all three are positive. *)
Theorem encodeMeta_fields (g : Vars) (s k v : Z) (rest : list byte) :
  GoInt.is_int s -> GoInt.is_int k -> GoInt.is_int v ->
  let h := encodeMeta [] s k v in
  GoInt.of_uint64 (binary.Uint64 (firstn 8 h)) = s /\
  GoInt.of_uint64 (binary.Uint64 (firstn 8 (skipn 8 h))) = k /\
  GoInt.of_uint64 (binary.Uint64 (skipn 16 h)) = v /\
  (fst (fst (decodeMeta g (h ++ rest))) = None <-> 0 < s /\ 0 < k /\ 0 < v).
Proof.
  intros Hs Hk Hv h.
  destruct (header_fields s k v Hs Hk Hv) as (L & Fs & Fk & Fv). fold h in L, Fs, Fk, Fv.
  repeat split; try assumption.
  - rewrite (decodeMeta_header g h rest L) in H. cbv zeta in H.
    rewrite Fs in H. destruct (Z.leb_spec s 0); [ discriminate | lia ].
  - rewrite (decodeMeta_header g h rest L) in H. cbv zeta in H.
    rewrite Fs, Fk in H. destruct (Z.leb_spec s 0); [ discriminate |].
    destruct (Z.leb_spec k 0); [ discriminate | lia ].
  - rewrite (decodeMeta_header g h rest L) in H. cbv zeta in H.
    rewrite Fs, Fk, Fv in H. destruct (Z.leb_spec s 0); [ discriminate |].
    destruct (Z.leb_spec k 0); [ discriminate |].
    destruct (Z.leb_spec v 0); [ discriminate | lia ].
  - intros (Ps & Pk & Pv). rewrite (decodeMeta_header g h rest L). cbv zeta.
    rewrite Fs, Fk, Fv.
    destruct (Z.leb_spec s 0); [ lia |].
    destruct (Z.leb_spec k 0); [ lia |].
    destruct (Z.leb_spec v 0); [ lia | reflexivity ].
Qed.

Lemma encodeMeta_fields_witness :
  let h := encodeMeta [] 10 (-3) 0 in
  GoInt.of_uint64 (binary.Uint64 (firstn 8 h)) = 10 /\
  GoInt.of_uint64 (binary.Uint64 (firstn 8 (skipn 8 h))) = -3 /\
  GoInt.of_uint64 (binary.Uint64 (skipn 16 h)) = 0 /\
  (fst (fst (decodeMeta (mkVars 100 8 8) (h ++ [x01]))) = None
   <-> 0 < 10 /\ 0 < -3 /\ 0 < 0).
Proof.
  apply (encodeMeta_fields (mkVars 100 8 8) 10 (-3) 0 [x01]);
    unfold GoInt.is_int, GoInt.minInt, GoInt.maxInt; lia.
Defined.

(** ** One record *)

(** X7.  On success [encodeRow] keeps the bytes of [b] and appends one
    record: 8 bytes that hold, big-endian, the length of the payload, then the
    payload, which is the encoding of the key fields, the value fields and the
    handle, in this order. *)
Theorem encodeRow_appends_record (b : list byte) (row : comparableRow)
    (out : list byte) :
  encodeRow b row = (out, None) ->
  exists head payload,
    out = b ++ head ++ payload /\
    len head = 8 /\
    (len payload < 2 ^ 64 -> binary.Uint64 head = len payload) /\
    codec.encodeAll (key row ++ val row ++ [NewIntDatum (handle row)])
    = inl payload.
Proof.
  intros E. destruct (encodeRow_ok b row out E) as (body & Eb & ->).
  exists (binary.PutUint64 (GoInt.to_uint64 (len body))), body.
  split; [ reflexivity |]. split; [ apply len_PutUint64 |].
  split; [| exact Eb ].
  intros H. rewrite Uint64_PutUint64. unfold GoInt.to_uint64.
  rewrite Z.mod_mod by lia. apply Z.mod_small.
  pose proof (len_nonneg body). lia.
Qed.

Lemma encodeRow_appends_record_witness :
  exists head payload,
    [xff; x01] ++ recordOf row_2_1 = [xff; x01] ++ head ++ payload /\
    len head = 8 /\
    (len payload < 2 ^ 64 -> binary.Uint64 head = len payload) /\
    codec.encodeAll (key row_2_1 ++ val row_2_1 ++ [NewIntDatum (handle row_2_1)])
    = inl payload.
Proof.
  apply (encodeRow_appends_record [xff; x01] row_2_1).
  vm_compute. reflexivity.
Defined.

(** ** Generated rows *)

(** X8.  For field counts that are not negative [nextRow] returns a row with
    [keySize] key fields and [valSize] value fields, each a signed integer
    datum in [0, 2^63), and a handle in [0, 2^63); such a row always
    encodes, to a record of [8 + 9 * (keySize + valSize + 1)] bytes. *)
Theorem nextRow_shape (r : rand.Rand) (k v : Z) :
  0 <= k -> 0 <= v ->
  exists row r',
    nextRow r k v = (Ok row, r') /\
    len (key row) = k /\ len (val row) = v /\
    Forall intDatum (key row) /\ Forall intDatum (val row) /\
    0 <= handle row < 2 ^ 63 /\
    encodeRow [] row = (recordOf row, None) /\
    len (recordOf row) = 8 + 9 * (k + v + 1).
Proof.
  intros Hk Hv.
  destruct (nextRow_spec r k v Hk Hv) as (row & r' & E & Lk & Lv & Fk & Fv & Hh).
  destruct (record_of_ints row Fk Fv Hh) as (Er & Lr & _).
  exists row, r'. rewrite Lk, Lv in Lr. repeat split; try assumption; lia.
Qed.

Lemma nextRow_shape_witness :
  exists row r',
    nextRow (rand.mkRand (fun n => Z.of_nat n - 5) 0) 2 1 = (Ok row, r') /\
    len (key row) = 2 /\ len (val row) = 1 /\
    Forall intDatum (key row) /\ Forall intDatum (val row) /\
    0 <= handle row < 2 ^ 63 /\
    encodeRow [] row = (recordOf row, None) /\
    len (recordOf row) = 8 + 9 * (2 + 1 + 1).
Proof.
  apply (nextRow_shape (rand.mkRand (fun n => Z.of_nat n - 5) 0) 2 1); lia.
Defined.

(** ** Whatever the file holds *)

Lemma decodeMeta_ok_positive (g g1 : Vars) (fd fd1 : os.File) :
  decodeMeta g fd = (None, g1, fd1) ->
  0 < scale g1 /\ 0 < keySize g1 /\ 0 < valSize g1.
Proof.
  unfold decodeMeta.
  destruct (os.Read fd 24) as [[data err] fd0].
  destruct (negb (len data =? 24)); [ discriminate |].
  destruct err; [ discriminate |].
  cbn [scale keySize valSize].
  destruct (Z.leb_spec (GoInt.of_uint64 (binary.Uint64 (firstn 8 (os.fill data 24)))) 0);
    [ discriminate |].
  destruct (Z.leb_spec
              (GoInt.of_uint64
                 (binary.Uint64 (firstn 8 (skipn 8 (os.fill data 24))))) 0);
    [ discriminate |].
  destruct (Z.leb_spec
              (GoInt.of_uint64 (binary.Uint64 (skipn 16 (os.fill data 24)))) 0);
    [ discriminate |].
  intros E. inversion E; subst. cbn [scale keySize valSize]. auto.
Qed.

Lemma slice_ok_len {A} (s x : list A) (lo hi : Z) :
  slice s lo hi = Ok x -> len x = hi - lo /\ 0 <= lo <= hi.
Proof.
  unfold slice.
  destruct (Z.leb_spec 0 lo); [| discriminate ].
  destruct (Z.leb_spec lo hi); [| discriminate ].
  destruct (Z.leb_spec hi (len s)); [| discriminate ].
  cbn [andb]. intros E. inversion E; subst.
  unfold len in *. rewrite length_firstn, length_skipn. lia.
Qed.

Lemma decodeRow_ok_shape (g : Vars) (fd fd' : os.File) (row : comparableRow) :
  0 < keySize g -> 0 < valSize g ->
  GoInt.is_int (keySize g) -> GoInt.is_int (valSize g) ->
  decodeRow g fd = (Ok row, fd') ->
  len (key row) = keySize g /\ len (val row) = valSize g.
Proof.
  intros Pk Pv Ik Iv. unfold decodeRow.
  destruct (GoInt.add (GoInt.add (keySize g) (valSize g)) 1 <? 0);
    [ discriminate |].
  destruct (os.Read fd 8) as [[data err] fd1].
  destruct (negb (len data =? 8)); [ discriminate |].
  destruct err; [ discriminate |].
  destruct (GoInt.of_uint64 (binary.Uint64 (os.fill data 8)) <? 0);
    [ discriminate |].
  destruct (os.Read fd1 _) as [[data2 err2] fd2].
  destruct (negb (len data2 =? _)); [ discriminate |].
  destruct err2; [ discriminate |].
  destruct (codec.Decode _ _) as [dcod|e]; [| discriminate ].
  destruct (slice dcod 0 (keySize g)) as [k| |] eqn:S1; try discriminate.
  destruct (slice dcod (keySize g) (GoInt.add (keySize g) (valSize g)))
    as [v| |] eqn:S2; try discriminate.
  destruct (slice dcod (GoInt.add (keySize g) (valSize g)) (len dcod))
    as [[|h t]| |] eqn:S3; try discriminate.
  intros E. inversion E; subst. cbn [key val].
  destruct (slice_ok_len _ _ _ _ S1) as (L1 & _).
  destruct (slice_ok_len _ _ _ _ S2) as (L2 & B2).
  split; [ lia |].
  assert (GoInt.add (keySize g) (valSize g) = keySize g + valSize g); [| lia ].
  unfold GoInt.is_int, GoInt.minInt, GoInt.maxInt in Ik, Iv.
  revert B2. unfold GoInt.add, GoInt.of_uint64.
  rewrite Z.mod_small by lia.
  destruct (Z.ltb_spec (keySize g + valSize g) (2 ^ 63)); lia.
Qed.

Lemma loadRows_ok (n : nat) (g : Vars) : forall (fd fd' : os.File)
    (data data' : list comparableRow),
  0 < keySize g -> 0 < valSize g ->
  GoInt.is_int (keySize g) -> GoInt.is_int (valSize g) ->
  loadRows n g fd data = (Ok data', fd') ->
  exists rows,
    data' = data ++ rows /\ List.length rows = n /\
    decodes g fd rows fd' /\
    Forall (fun row => len (key row) = keySize g /\ len (val row) = valSize g)
           rows.
Proof.
  induction n as [|n IH]; intros fd fd' data data' Pk Pv Ik Iv E.
  - cbn [loadRows] in E. inversion E; subst. exists [].
    rewrite app_nil_r. repeat split; constructor.
  - cbn [loadRows] in E.
    destruct (decodeRow g fd) as [[row| |] fd1] eqn:D; try discriminate.
    destruct (IH _ _ _ _ Pk Pv Ik Iv E) as (rows & -> & Ln & Dc & F).
    exists (row :: rows). rewrite <- app_assoc. cbn [app List.length].
    repeat split.
    + lia.
    + econstructor; eassumption.
    + constructor; [| exact F ].
      exact (decodeRow_ok_shape g fd fd1 row Pk Pv Ik Iv D).
Qed.

Lemma decodeMeta_ok_int (g g1 : Vars) (fd fd1 : os.File) :
  decodeMeta g fd = (None, g1, fd1) ->
  GoInt.is_int (keySize g1) /\ GoInt.is_int (valSize g1).
Proof.
  unfold decodeMeta.
  destruct (os.Read fd 24) as [[data err] fd0].
  destruct (negb (len data =? 24)); [ discriminate |].
  destruct err; [ discriminate |].
  cbn [scale keySize valSize].
  destruct (_ <=? 0); [ discriminate |].
  destruct (_ <=? 0); [ discriminate |].
  destruct (_ <=? 0); [ discriminate |].
  intros E. inversion E; subst. cbn [keySize valSize].
  split; apply of_uint64_is_int.
Qed.

(** X9.  [load] never returns a short result.  Whatever bytes the file
    holds, when [load] returns rows the header held three positive numbers,
    the rows are exactly [totalRows] many (none when [totalRows] is negative),
    they are the rows successive calls of [decodeRow] returned from the byte
    after the header on, and each has [keySize] key fields and [valSize]
    value fields. *)
Theorem load_ok_complete (g g1 : Vars) (file : list byte) (ratio : Z)
    (data : list comparableRow) (fd : os.File) :
  load g (Some file) ratio = (Ok data, g1, fd) ->
  0 < scale g1 /\ 0 < keySize g1 /\ 0 < valSize g1 /\
  len data = Z.max 0 (totalRows (scale g1) ratio) /\
  (exists fd1, decodeMeta g file = (None, g1, fd1) /\ decodes g1 fd1 data fd) /\
  Forall (fun row => len (key row) = keySize g1 /\ len (val row) = valSize g1)
         data.
Proof.
  unfold load.
  destruct (decodeMeta g file) as [[[e|] g0] fd1] eqn:M; [ discriminate |].
  destruct (loadRows _ g0 fd1 []) as [res fd2] eqn:L.
  intros E. inversion E; subst.
  destruct (decodeMeta_ok_positive _ _ _ _ M) as (Ps & Pk & Pv).
  destruct (decodeMeta_ok_int _ _ _ _ M) as (Ik & Iv).
  destruct (loadRows_ok _ _ _ _ _ _ Pk Pv Ik Iv L) as (rows & -> & Ln & Dc & F).
  cbn [app]. repeat split; try assumption.
  - unfold len. rewrite Ln. lia.
  - exists fd1. split; [ reflexivity | exact Dc ].
Qed.

Lemma load_ok_complete_witness :
  0 < 3 /\ 0 < 1 /\ 0 < 1 /\
  len [row_1_1] = Z.max 0 (totalRows 3 50) /\
  (exists fd1, decodeMeta (mkVars 100 8 8) (manyFile 3) = (None, mkVars 3 1 1, fd1)
               /\ decodes (mkVars 3 1 1) fd1 [row_1_1] (records (manyRows 2))) /\
  Forall (fun row => len (key row) = 1 /\ len (val row) = 1) [row_1_1].
Proof.
  apply (load_ok_complete (mkVars 100 8 8) (mkVars 3 1 1) (manyFile 3) 50
           [row_1_1] (records (manyRows 2))).
  vm_compute. reflexivity.
Defined.

(** ** Files that [export] writes, and parts of them *)

(** X10.  For positive [scale], [keySize] and [valSize] [export] never fails:
    it writes the 24-byte header followed by one record of
    [8 + 9 * (keySize + valSize + 1)] bytes for each of the [scale] rows that
    [nextRow] generated, in the order of generation, which is a well-formed
    file. *)
Theorem export_file_layout (s k v : Z) (r : rand.Rand) :
  0 < s -> 0 < k -> 0 < v ->
  24 + s * (8 + 9 * (k + v + 1)) <= GoInt.maxInt ->
  let rows := nextRows (Z.to_nat s) r k v in
  let file := encodeMeta [] s k v ++ records rows in
  export (mkVars s k v) r = Ok file /\
  wellFormed file s k v rows /\
  len file = 24 + s * (8 + 9 * (k + v + 1)).
Proof. apply export_wellFormed. Qed.

Lemma export_file_layout_witness :
  let r := rand.mkRand (fun n => Z.of_nat n * 7919) 0 in
  let rows := nextRows (Z.to_nat 4) r 3 2 in
  let file := encodeMeta [] 4 3 2 ++ records rows in
  export (mkVars 4 3 2) r = Ok file /\
  wellFormed file 4 3 2 rows /\
  len file = 24 + 4 * (8 + 9 * (3 + 2 + 1)).
Proof.
  apply (export_file_layout 4 3 2 (rand.mkRand (fun n => Z.of_nat n * 7919) 0));
    unfold GoInt.maxInt; lia.
Defined.

(** X11.  What [export] wrote, [load] reads back: for a scale of at most
    2^53 and a ratio in [0, 100], [load] on the file of [export] returns the
    first [totalRows] generated rows, in the order of generation, and sets the
    variables to the ones [export] ran with. *)
Theorem load_after_export (g : Vars) (s k v ratio : Z) (r : rand.Rand) :
  0 < s <= 2 ^ 53 -> 0 < k -> 0 < v ->
  24 + s * (8 + 9 * (k + v + 1)) <= GoInt.maxInt ->
  0 <= ratio <= 100 ->
  exists file,
    export (mkVars s k v) r = Ok file /\
    fst (load g (Some file) ratio)
    = (Ok (firstn (Z.to_nat (totalRows s ratio)) (nextRows (Z.to_nat s) r k v)),
       mkVars s k v).
Proof.
  intros Hs Hk Hv Hz Hr.
  destruct (export_wellFormed s k v r ltac:(lia) Hk Hv Hz) as (E & W & _).
  eexists. split; [ exact E |].
  rewrite (load_prefix g _ s k v _ ratio W); [ reflexivity |].
  apply totalRows_range; lia.
Qed.

Lemma load_after_export_witness :
  let r := rand.mkRand (fun n => Z.of_nat n * 7919) 0 in
  exists file,
    export (mkVars 4 3 2) r = Ok file /\
    fst (load (mkVars 100 8 8) (Some file) 75)
    = (Ok (firstn (Z.to_nat (totalRows 4 75)) (nextRows (Z.to_nat 4) r 3 2)),
       mkVars 4 3 2).
Proof.
  apply (load_after_export (mkVars 100 8 8) 4 3 2 75
           (rand.mkRand (fun n => Z.of_nat n * 7919) 0));
    unfold GoInt.maxInt; lia.
Defined.

Lemma len_records_firstn (n : nat) (rows : list comparableRow) :
  len (records (firstn n rows)) <= len (records rows).
Proof.
  rewrite <- (firstn_skipn n rows) at 2. rewrite records_app, len_app.
  pose proof (len_nonneg (records (skipn n rows))). lia.
Qed.

(** X12.  [load] stops after [totalRows] records and does not look at what
    follows them: when the header and the first [totalRows] records of a
    well-formed file are followed by any bytes at all, [load] returns the
    first [totalRows] rows and leaves the file at the first of these bytes. *)
Theorem load_ignores_rest (g : Vars) (file : list byte) (s k v : Z)
    (rows : list comparableRow) (ratio : Z) (rest : list byte) :
  wellFormed file s k v rows ->
  0 <= totalRows s ratio <= s ->
  let n := Z.to_nat (totalRows s ratio) in
  load g (Some (encodeMeta [] s k v ++ records (firstn n rows) ++ rest)) ratio
  = (Ok (firstn n rows), mkVars s k v, rest).
Proof.
  intros W Hn n.
  destruct (wellFormed_file _ _ _ _ _ W) as (_ & F & L & Hs & Hk & Hv).
  destruct W as [Ps Pk Pv Hc Hr _ _].
  assert (Nle : (n <= List.length rows)%nat) by (unfold n, len in *; lia).
  rewrite (load_after_decodes g (mkVars s k v) _ ratio
             (records (firstn n rows) ++ rest) rest (firstn n rows) 0).
  - reflexivity.
  - apply decodeMeta_written; lia.
  - apply decodes_records.
    + apply Forall_firstn'. exact Hr.
    + apply Forall_firstn'. exact F.
    + pose proof (len_records_firstn n rows). lia.
  - cbn [scale]. fold n. rewrite length_firstn. lia.
Qed.

Lemma load_ignores_rest_witness :
  let n := Z.to_nat (totalRows 3 50) in
  load (mkVars 100 8 8)
       (Some (encodeMeta [] 3 1 1 ++ records (firstn n (manyRows 3))
              ++ [xff; xff; xff])) 50
  = (Ok (firstn n (manyRows 3)), mkVars 3 1 1, [xff; xff; xff]).
Proof.
  apply (load_ignores_rest (mkVars 100 8 8) (manyFile 3) 3 1 1 (manyRows 3) 50
           [xff; xff; xff]).
  - apply manyFile_wellFormed; unfold GoInt.maxInt; lia.
  - vm_compute. split; discriminate.
Defined.

Lemma firstn_app_le {A} (c : nat) (a b : list A) :
  (List.length a <= c)%nat ->
  firstn c (a ++ b) = a ++ firstn (c - List.length a) b.
Proof.
  intros H. rewrite firstn_app. rewrite firstn_all2 by lia. reflexivity.
Qed.

Lemma firstn_app_lt {A} (c : nat) (a b : list A) :
  (c <= List.length a)%nat -> firstn c (a ++ b) = firstn c a.
Proof.
  intros H. rewrite firstn_app.
  replace (c - List.length a)%nat with 0%nat by lia.
  cbn [firstn]. apply app_nil_r.
Qed.

(** A record that is cut short does not decode. *)
Lemma decodeRow_cut_record (g : Vars) (body : list byte) (c : nat) :
  capOk g -> len body <= GoInt.maxInt ->
  Z.of_nat c < 8 + len body ->
  exists e,
    decodeRow g (firstn c (binary.PutUint64 (GoInt.to_uint64 (len body)) ++ body))
    = (Err e, []) /\
    (e = errNew "incorrect header" \/ e = errNew "incorrect row").
Proof.
  intros C Lb Hc.
  set (head := binary.PutUint64 (GoInt.to_uint64 (len body))).
  assert (L8 : len head = 8) by apply len_PutUint64.
  assert (L8' : List.length head = 8%nat) by (unfold len in L8; lia).
  pose proof (len_nonneg body) as Nb.
  destruct (Nat.lt_ge_cases c 8) as [Lt|Ge].
  - exists (errNew "incorrect header"). split; [| left; reflexivity ].
    apply decodeRow_few_bytes; [ exact C |].
    unfold len. rewrite length_firstn. lia.
  - exists (errNew "incorrect row"). split; [| right; reflexivity ].
    rewrite firstn_app_le by lia.
    assert (U : binary.Uint64 head = len body).
    { unfold head. rewrite Uint64_PutUint64. unfold GoInt.to_uint64.
      rewrite Z.mod_mod by lia. apply Z.mod_small.
      unfold GoInt.maxInt in Lb. lia. }
    apply decodeRow_few_payload; [ exact C | exact L8 | |].
    + rewrite U. unfold GoInt.maxInt in Lb. lia.
    + rewrite U. unfold len. rewrite length_firstn. unfold len in Hc. lia.
Qed.

Lemma loadRows_cut (g : Vars) (rows : list comparableRow) :
  capOk g ->
  Forall (rowShape (keySize g) (valSize g)) rows ->
  Forall (fun row => encodeRow [] row = (recordOf row, None)) rows ->
  len (records rows) <= GoInt.maxInt ->
  forall (c : nat) (m : nat) (data : list comparableRow),
    Z.of_nat c < len (records rows) ->
    exists e,
      loadRows (List.length rows + m) g (firstn c (records rows)) data
      = (Err (errTrace e), []) /\
      (e = errNew "incorrect header" \/ e = errNew "incorrect row").
Proof.
  intros C. induction rows as [|row rows IH]; intros Hr F L c m data Hc.
  - unfold records, len in Hc. simpl in Hc. lia.
  - inversion Hr as [|? ? Sh Hr']; subst. inversion F as [|? ? E0 F']; subst.
    rewrite records_cons in *. rewrite len_app in L, Hc.
    pose proof (len_nonneg (records rows)) as N1.
    pose proof (len_nonneg (recordOf row)) as N2.
    destruct (encodeRow_ok [] row _ E0) as (body & Eb & Rec).
    cbn [app] in Rec.
    assert (Lrec : len (recordOf row) = 8 + len body)
      by (rewrite Rec, len_app, len_PutUint64; reflexivity).
    cbn [List.length Nat.add loadRows].
    destruct (Nat.lt_ge_cases c (List.length (recordOf row))) as [Lt|Ge].
    + rewrite firstn_app_lt by lia. rewrite Rec.
      assert (B1 : len body <= GoInt.maxInt) by lia.
      assert (B2 : Z.of_nat c < 8 + len body) by (unfold len in *; lia).
      destruct (decodeRow_cut_record g body c C B1 B2) as (e & -> & He).
      exists e. split; [ reflexivity | exact He ].
    + rewrite firstn_app_le by exact Ge.
      set (c' := (c - List.length (recordOf row))%nat).
      assert (Hc' : Z.of_nat c' < len (records rows))
        by (unfold c', len in *; lia).
      rewrite Rec.
      destruct Sh as (S1 & S2 & S3 & S4 & S5).
      rewrite (decodeRow_record g row body _ S1 S2 S3 S4 S5 Eb) by lia.
      apply IH; try assumption. lia.
Qed.

(** X13.  A cut inside the records that [load] needs is detected: when a
    well-formed file is cut after its header and before the end of its first
    [totalRows] records, [load] returns the error "incorrect header" (the cut
    left fewer than 8 bytes of a record) or "incorrect row", traced, and no
    rows. *)
Theorem load_detects_cut (g : Vars) (file : list byte) (s k v : Z)
    (rows : list comparableRow) (ratio : Z) (c : nat) :
  wellFormed file s k v rows ->
  0 <= totalRows s ratio <= s ->
  24 <= Z.of_nat c
  < 24 + len (records (firstn (Z.to_nat (totalRows s ratio)) rows)) ->
  exists e,
    load g (Some (firstn c file)) ratio
    = (Err (errTrace e), mkVars s k v, []) /\
    (e = errNew "incorrect header" \/ e = errNew "incorrect row").
Proof.
  intros W Hn Hc.
  destruct (wellFormed_file _ _ _ _ _ W) as (-> & F & L & Hs & Hk & Hv).
  destruct W as [Ps Pk Pv Hcnt Hr _ _].
  set (n := Z.to_nat (totalRows s ratio)) in *.
  assert (Nle : (n <= List.length rows)%nat) by (unfold n, len in *; lia).
  assert (L24 : List.length (encodeMeta [] s k v) = 24%nat).
  { pose proof (len_encodeMeta [] s k v) as P.
    change (len []) with 0 in P. unfold len in P. lia. }
  rewrite firstn_app_le by lia. rewrite L24.
  replace (records rows)
    with (records (firstn n rows) ++ records (skipn n rows))
    by (rewrite <- records_app, firstn_skipn; reflexivity).
  rewrite firstn_app_lt by (unfold len in Hc; lia).
  assert (C : capOk (mkVars s k v)).
  { unfold capOk. cbn [keySize valSize].
    destruct rows as [|row rows']; [ unfold len in Hcnt; simpl in Hcnt; lia |].
    inversion Hr as [|? ? (Hk' & Hv' & _) _]; subst.
    inversion F as [|? ? E0 _]; subst.
    pose proof (len_recordOf_ge row E0).
    rewrite records_cons, len_app in L.
    pose proof (len_nonneg (records rows')).
    rewrite (add_small (len (key row)) (len (val row))) by lia.
    rewrite add_small by lia. lia. }
  destruct (loadRows_cut (mkVars s k v) (firstn n rows) C
              (Forall_firstn' _ n rows Hr) (Forall_firstn' _ n rows F)
              ltac:(pose proof (len_records_firstn n rows); lia)
              (c - 24) 0 [] ltac:(lia)) as (e & E & He).
  exists e. split; [| exact He ].
  unfold load. rewrite decodeMeta_written by lia. cbn [scale]. fold n.
  replace n with (List.length (firstn n rows) + 0)%nat at 1
    by (rewrite length_firstn; lia).
  rewrite E. reflexivity.
Qed.

Lemma load_detects_cut_witness :
  exists e,
    load (mkVars 100 8 8) (Some (firstn 70 (manyFile 3))) 100
    = (Err (errTrace e), mkVars 3 1 1, []) /\
    (e = errNew "incorrect header" \/ e = errNew "incorrect row").
Proof.
  apply (load_detects_cut (mkVars 100 8 8) (manyFile 3) 3 1 1 (manyRows 3) 100 70).
  - apply manyFile_wellFormed; unfold GoInt.maxInt; lia.
  - vm_compute. split; discriminate.
  - vm_compute. split; [ discriminate | reflexivity ].
Defined.

(** ** How far [totalRows] is from the exact quotient *)

Section NearFloor.
Import float64 float64_facts.

(** Rounding moves a value by at most half a unit in the last place. *)
Lemma round_pos_error (n d E : Z) :
  0 <= n -> 0 < d -> 0 <= E -> n < d * 2 ^ (E + prec) ->
  - (d * 2 ^ E) <= 2 * n - 2 * round_pos n d * d <= d * 2 ^ E.
Proof.
  intros Hn Hd HE Hlt.
  assert (Le : ulp_exp n d <= E).
  { unfold ulp_exp, prec in *.
    assert (Q : n / d < 2 ^ (E + 53)) by (apply Z.div_lt_upper_bound; lia).
    assert (0 <= n / d) by (apply Z.div_pos; lia).
    destruct (Z.eq_dec (n / d) 0) as [->|Nz]; [ simpl; lia |].
    apply Z.log2_lt_pow2 in Q; lia. }
  pose proof (ulp_exp_nonneg n d) as Ne.
  rewrite round_pos_eq.
  set (e := ulp_exp n d) in *.
  assert (Pp : 0 < 2 ^ e) by (apply Z.pow_pos_nonneg; lia).
  assert (PP : 2 ^ e <= 2 ^ E) by (apply Z.pow_le_mono_r; lia).
  destruct (nearest_even_bounds n (d * 2 ^ e) Hn ltac:(nia)) as (B & _).
  set (k := nearest_even n (d * 2 ^ e)) in *.
  assert (d * 2 ^ e <= d * 2 ^ E) by nia.
  lia.
Qed.

Lemma totalRows_floor (s r : Z) : 0 <= s <= 2 ^ 40 -> 0 <= r <= 100 ->
  s * r / 100 - 1 <= totalRows s r <= s * r / 100.
Proof.
  intros Hs Hr. pose proof one_pos as Po.
  assert (Hs' : 0 <= s <= 2 ^ 53) by lia.
  pose proof (fraction_range r Hr) as RF.
  pose proof (scaled_range s r Hs' Hr) as RP.
  rewrite totalRows_eq, to_int_small by nia.
  (* the two roundings *)
  pose proof (fraction_eq r Hr) as EF.
  assert (EP : mul (of_int s) (fraction r)
               = round_pos (s * one * fraction r) one).
  { rewrite of_int_exact by exact Hs'. unfold mul.
    apply round_nonneg_eq. nia. }
  set (F := fraction r) in *. set (P := mul (of_int s) F) in *.
  assert (O : one = 2 ^ 52 * 2 ^ 1022) by (rewrite one_eq; reflexivity).
  assert (Pu : 0 < 2 ^ 1022) by (apply Z.pow_pos_nonneg; lia).
  pose proof (round_pos_error (r * one * one) (100 * one) 1022
                ltac:(nia) ltac:(lia) ltac:(lia)) as A.
  rewrite <- EF in A.
  pose proof (round_pos_error (s * one * F) one 1062
                ltac:(nia) ltac:(lia) ltac:(lia)) as B.
  rewrite <- EP in B.
  assert (U2 : 2 ^ 1062 = 2 ^ 40 * 2 ^ 1022) by reflexivity.
  assert (U3 : 2 ^ (1022 + prec) = 2 * one) by (rewrite one_eq; reflexivity).
  assert (U4 : 2 ^ (1062 + prec) = 2 ^ 41 * one) by (rewrite one_eq; reflexivity).
  rewrite U3 in A. rewrite U4, U2 in B.
  remember (2 ^ 1022) as u eqn:Eu.
  assert (A' : - (50 * u) <= r * one - 100 * F <= 50 * u).
  { assert (A1 : r * one * one < 100 * one * (2 * one)) by nia.
    specialize (A A1). nia. }
  assert (B' : - (2 ^ 39 * u) <= s * F - P <= 2 ^ 39 * u).
  { assert (B1 : s * one * F < one * (2 ^ 41 * one)) by nia.
    specialize (B B1). nia. }
  clear A B EF EP.
  assert (As : - (50 * (s * u)) <= s * r * one - 100 * (s * F) <= 50 * (s * u))
    by nia.
  assert (Su : s * u <= 2 ^ 40 * u) by nia.
  pose proof (Z.div_mod (s * r) 100 ltac:(lia)) as DM.
  pose proof (Z.mod_pos_bound (s * r) 100 ltac:(lia)) as MB.
  set (q := s * r / 100) in *. set (m := (s * r) mod 100) in *.
  assert (Q1 : s * r * one = 100 * (q * one) + m * one) by (rewrite DM; ring).
  assert (Q2 : 0 <= m * one <= 99 * one) by nia.
  split.
  - apply Z.div_le_lower_bound; [ lia |]. lia.
  - assert (P / one < q + 1); [| lia ].
    apply Z.div_lt_upper_bound; [ lia |]. lia.
Qed.

End NearFloor.

(** X14.  For a scale of at most 2^40 and a ratio in [0, 100] the number of
    rows [load] asks for is the exact quotient [scale * ratio / 100], rounded
    down, or one less: the two roundings of the floating-point computation
    never make it larger and never lose more than one row. *)
Theorem totalRows_near_floor (s r : Z) :
  0 <= s <= 2 ^ 40 -> 0 <= r <= 100 ->
  s * r / 100 - 1 <= totalRows s r <= s * r / 100.
Proof. apply totalRows_floor. Qed.

Lemma totalRows_near_floor_witness :
  1000 * 57 / 100 - 1 <= totalRows 1000 57 <= 1000 * 57 / 100.
Proof. apply (totalRows_near_floor 1000 57); lia. Defined.

(** ** The commands *)

Lemma export_ok (g : Vars) (r : rand.Rand) :
  0 <= keySize g -> 0 <= valSize g ->
  export g r
  = Ok (encodeMeta [] (scale g) (keySize g) (valSize g)
        ++ records (nextRows (Z.to_nat (scale g)) r (keySize g) (valSize g))).
Proof. intros Hk Hv. unfold export. apply exportRows_spec; assumption. Qed.

(** X15.  The sanity checks of [gen] are what [export] needs: the command
    writes a file exactly when [keySize], [valSize] and [scale] are positive
    and the directory exists, the file then being the header followed by the
    records of the generated rows; in every other case it ends with an error
    before anything is generated, and it never panics (storage is not bounded
    in this model). *)
Theorem main_gen_checks (g : Vars) (dirExists : bool) (r : rand.Rand) :
  (main_gen g dirExists r
   = Ok (encodeMeta [] (scale g) (keySize g) (valSize g)
         ++ records (nextRows (Z.to_nat (scale g)) r (keySize g) (valSize g)))
   <-> 0 < keySize g /\ 0 < valSize g /\ 0 < scale g /\ dirExists = true)
  /\ (forall file, main_gen g dirExists r = Ok file ->
                   export g r = Ok file)
  /\ (forall m, main_gen g dirExists r <> Panic m).
Proof.
  unfold main_gen.
  destruct (Z.leb_spec (keySize g) 0) as [Hk|Hk].
  { repeat split; try discriminate; intros; lia. }
  destruct (Z.leb_spec (valSize g) 0) as [Hv|Hv].
  { repeat split; try discriminate; intros; lia. }
  destruct (Z.leb_spec (scale g) 0) as [Hs|Hs].
  { repeat split; try discriminate; intros; lia. }
  destruct dirExists; cbn [negb].
  - rewrite export_ok by lia.
    repeat split; try assumption; try discriminate. intros file E; exact E.
  - repeat split; try discriminate. intros (_ & _ & _ & E). discriminate.
Qed.

(** X16.  [run] reports loaded rows only for a valid configuration and a
    file that held all the rows asked for: when the command ends with rows,
    [bufSize] was positive, both ratios were in [0, 100], the directory and
    the file existed, and the rows are the ones [load] returned for
    [inputRatio], [totalRows] many (none where [totalRows] is negative). *)
Theorem main_run_ok (g : Vars) (bufSize inputRatio outputRatio : Z)
    (dirExists : bool) (file : option (list byte))
    (data : list comparableRow) :
  main_run g bufSize inputRatio outputRatio dirExists file = Ok data ->
  0 < bufSize /\ 0 <= inputRatio <= 100 /\ 0 <= outputRatio <= 100 /\
  dirExists = true /\
  exists bytes g1 fd,
    file = Some bytes /\
    load g (Some bytes) inputRatio = (Ok data, g1, fd) /\
    len data = Z.max 0 (totalRows (scale g1) inputRatio).
Proof.
  unfold main_run.
  destruct (Z.leb_spec bufSize 0); [ discriminate |].
  destruct (Z.ltb_spec inputRatio 0); [ discriminate |].
  destruct (Z.ltb_spec 100 inputRatio); [ discriminate |].
  destruct (Z.ltb_spec outputRatio 0); [ discriminate |].
  destruct (Z.ltb_spec 100 outputRatio); [ discriminate |].
  cbn [orb]. destruct dirExists; [| discriminate ]. cbn [negb].
  destruct file as [bytes|]; [| discriminate ].
  destruct (load g (Some bytes) inputRatio) as [[res g1] fd] eqn:L.
  cbn [fst]. intros ->.
  repeat (split; [ lia || reflexivity |]).
  exists bytes, g1, fd.
  split; [ reflexivity |]. split; [ exact L |].
  destruct (load_ok_complete g g1 bytes inputRatio data fd L)
    as (_ & _ & _ & Ld & _).
  exact Ld.
Qed.

Lemma main_run_ok_witness :
  0 < 500000 /\ 0 <= 50 <= 100 /\ 0 <= 100 <= 100 /\ true = true /\
  exists bytes g1 fd,
    Some (manyFile 3) = Some bytes /\
    load (mkVars 100 8 8) (Some bytes) 50 = (Ok [row_1_1], g1, fd) /\
    len [row_1_1] = Z.max 0 (totalRows (scale g1) 50).
Proof.
  apply (main_run_ok (mkVars 100 8 8) 500000 50 100 true (Some (manyFile 3))
           [row_1_1]).
  vm_compute. reflexivity.
Defined.

(** X17.  [run] after [gen]: when [gen] ran with positive flags, a scale of
    at most 2^53 and a file size within [int], [run] on its file, with a
    positive [bufSize] and ratios in [0, 100], ends with the first
    [totalRows] generated rows, in the order of generation, whatever the
    variables held when it started. *)
Theorem main_run_after_gen (g : Vars) (s k v : Z) (r : rand.Rand)
    (bufSize inputRatio outputRatio : Z) :
  0 < s <= 2 ^ 53 -> 0 < k -> 0 < v ->
  24 + s * (8 + 9 * (k + v + 1)) <= GoInt.maxInt ->
  0 < bufSize -> 0 <= inputRatio <= 100 -> 0 <= outputRatio <= 100 ->
  exists file,
    main_gen (mkVars s k v) true r = Ok file /\
    main_run g bufSize inputRatio outputRatio true (Some file)
    = Ok (firstn (Z.to_nat (totalRows s inputRatio))
                 (nextRows (Z.to_nat s) r k v)).
Proof.
  intros Hs Hk Hv Hz Hb Hi Ho.
  destruct (export_wellFormed s k v r ltac:(lia) Hk Hv Hz) as (E & W & _).
  eexists. split.
  - unfold main_gen. cbn [scale keySize valSize negb].
    destruct (Z.leb_spec k 0); [ lia |].
    destruct (Z.leb_spec v 0); [ lia |].
    destruct (Z.leb_spec s 0); [ lia |].
    exact E.
  - unfold main_run.
    destruct (Z.leb_spec bufSize 0); [ lia |].
    destruct (Z.ltb_spec inputRatio 0); [ lia |].
    destruct (Z.ltb_spec 100 inputRatio); [ lia |].
    destruct (Z.ltb_spec outputRatio 0); [ lia |].
    destruct (Z.ltb_spec 100 outputRatio); [ lia |].
    cbn [orb negb].
    rewrite (load_prefix g _ s k v _ inputRatio W); [ reflexivity |].
    apply totalRows_range; lia.
Qed.

Lemma main_run_after_gen_witness :
  let r := rand.mkRand (fun n => Z.of_nat n * 7919) 0 in
  exists file,
    main_gen (mkVars 4 3 2) true r = Ok file /\
    main_run (mkVars 100 8 8) 500000 75 100 true (Some file)
    = Ok (firstn (Z.to_nat (totalRows 4 75)) (nextRows (Z.to_nat 4) r 3 2)).
Proof.
  apply (main_run_after_gen (mkVars 100 8 8) 4 3 2
           (rand.mkRand (fun n => Z.of_nat n * 7919) 0) 500000 75 100);
    unfold GoInt.maxInt; lia.
Defined.
